(** * Verification of [allennlp/commands/diff.py]

    A shallow embedding of [checkpoint_diff] (a Myers edit-script search over
    the ordered [(key, shape)] lists of two state dictionaries) and of
    [_finalize] (the pass that turns a [Keep] into a [Modify] when the two
    tensors differ), together with the properties stated about them.

    Python integers are [Z]; a [Dict[str, Tensor]] is an association list in
    insertion order (the order [items()] yields); the [frontier] dictionary is
    a [gmap Z _Frontier]; exceptions are explicit in the [Result] type. *)

From Stdlib Require Import ZArith String PrimFloat.
From stdpp Require Import gmap strings list.

Open Scope Z_scope.

(* [lia] also decides the parity side conditions on diagonals. *)
Ltac Zify.zify_post_hook ::= Z.to_euclidean_division_equations.

(** ** Exceptions and the error monad *)

Inductive Exn : Type :=
| KeyError
| IndexError
| AssertionError
| RuntimeError  (* what [torch] raises at line 139 *)
| OutOfFuel.  (* not a Python exception: the model of [while] ran out of fuel *)

Inductive Result (A : Type) : Type :=
| Ok (a : A)
| Raise (e : Exn).
Arguments Ok {A} a.
Arguments Raise {A} e.

#[global] Instance Result_bind : MBind Result := λ A B f m,
  match m with
  | Ok a => f a
  | Raise e => Raise e
  end.

(** ** Data model *)

(** [tuple(v.shape)] *)
Definition Shape : Type := list Z.

(** An element of [param_list_a] / [param_list_b]. *)
Definition Param : Type := string * Shape.

(** The four [NamedTuple] classes [Keep], [Insert], [Remove], [Modify]. *)
Inductive Step : Type :=
| Keep (key : string) (shape : Shape)
| Insert (key : string) (shape : Shape)
| Remove (key : string) (shape : Shape)
| Modify (key : string) (shape : Shape) (distance : float).

(** [class _Frontier(NamedTuple)]: fields [x] and [history]. *)
Record _Frontier : Type := mk_Frontier { fr_x : Z; fr_history : list Step }.

(** Python's [l[i]] on a list: negative indices count from the end,
    anything out of range raises [IndexError]. *)
Definition getitem {A} (l : list A) (i : Z) : Result A :=
  let j := if bool_decide (i < 0) then i + Z.of_nat (length l) else i in
  if bool_decide (0 ≤ j) then
    match l !! Z.to_nat j with
    | Some v => Ok v
    | None => Raise IndexError
    end
  else Raise IndexError.

(** [frontier[k]] *)
Definition frontier_get (frontier : gmap Z _Frontier) (k : Z) : Result _Frontier :=
  match frontier !! k with
  | Some f => Ok f
  | None => Raise KeyError
  end.

(** [range(start, stop, step)] for a positive step. *)
Definition range (start stop step : Z) : list Z :=
  (λ i : nat, start + step * Z.of_nat i) <$>
    seq 0 (Z.to_nat ((stop - start + step - 1) `div` step)).

(** [one(idx)] *)
Definition one (idx : Z) : Z := idx - 1.

(** What one iteration of the inner [for] leaves behind: either the function
    has returned (the argument it hands to [_finalize]) or the loops go on
    with the updated [frontier]. *)
Inductive Flow : Type :=
| Returned (history : list Step)
| Next (frontier : gmap Z _Frontier).

(** ** The edit-script search of [checkpoint_diff] *)

Section Search.
Variables param_list_a param_list_b : list Param.

Definition a_max : Z := Z.of_nat (length param_list_a).
Definition b_max : Z := Z.of_nat (length param_list_b).

(** Line 187. *)
Definition go_down (d k : Z) (frontier : gmap Z _Frontier) : Result bool :=
  if bool_decide (k = - d) then Ok true
  else if bool_decide (k ≠ d) then
    l ← frontier_get frontier (k - 1);
    r ← frontier_get frontier (k + 1);
    Ok (bool_decide (fr_x l < fr_x r))
  else Ok false.

(** Lines 193-198: the starting point [(x, history)] of the iteration. *)
Definition start_point (k : Z) (down : bool) (frontier : gmap Z _Frontier)
  : Result (Z * list Step) :=
  if down then
    f ← frontier_get frontier (k + 1);
    Ok (fr_x f, fr_history f)
  else
    f ← frontier_get frontier (k - 1);
    Ok (fr_x f + 1, fr_history f).

(** Lines 207-210: the discrete move appended to the history. *)
Definition discrete_move (down : bool) (x y : Z) (history : list Step)
  : Result (list Step) :=
  if bool_decide (1 ≤ y) && bool_decide (y ≤ b_max) && down then
    p ← getitem param_list_b (one y);
    Ok (history ++ [Insert p.1 p.2])
  else if bool_decide (1 ≤ x) && bool_decide (x ≤ a_max) then
    p ← getitem param_list_a (one x);
    Ok (history ++ [Remove p.1 p.2])
  else Ok history.

(** Lines 215-218: the [while] loop; each iteration increases [x], so
    [a_max - x] iterations are enough. *)
Fixpoint chew (fuel : nat) (x y : Z) (history : list Step)
  : Result (Z * Z * list Step) :=
  if bool_decide (x < a_max) && bool_decide (y < b_max) then
    pa ← getitem param_list_a (one (x + 1));
    pb ← getitem param_list_b (one (y + 1));
    if bool_decide (pa = pb) then
      match fuel with
      | O => Raise OutOfFuel
      | S fuel' =>
          let x := x + 1 in
          let y := y + 1 in
          p ← getitem param_list_a (one x);
          chew fuel' x y (history ++ [Keep p.1 p.2])
      end
    else Ok (x, y, history)
  else Ok (x, y, history).

(** Lines 187-225: the body of the inner [for]. *)
Definition body (d k : Z) (frontier : gmap Z _Frontier) : Result Flow :=
  down ← go_down d k frontier;
  s ← start_point k down frontier;
  let x := s.1 in
  let y := x - k in
  history ← discrete_move down x y s.2;
  r ← chew (Z.to_nat (a_max - x)) x y history;
  let '(x, y, history) := r in
  if bool_decide (a_max ≤ x) && bool_decide (b_max ≤ y) then
    Ok (Returned history)
  else
    Ok (Next (<[k := mk_Frontier x history]> frontier)).

(** [for k in ks: body] with the early [return]. *)
Fixpoint inner_loop (d : Z) (ks : list Z) (frontier : gmap Z _Frontier)
  : Result Flow :=
  match ks with
  | [] => Ok (Next frontier)
  | k :: ks' =>
      r ← body d k frontier;
      match r with
      | Returned history => Ok (Returned history)
      | Next frontier' => inner_loop d ks' frontier'
      end
  end.

(** [for d in ds: for k in range(-d, d + 1, 2): body] *)
Fixpoint outer_loop (ds : list Z) (frontier : gmap Z _Frontier)
  : Result Flow :=
  match ds with
  | [] => Ok (Next frontier)
  | d :: ds' =>
      r ← inner_loop d (range (- d) (d + 1) 2) frontier;
      match r with
      | Returned history => Ok (Returned history)
      | Next frontier' => outer_loop ds' frontier'
      end
  end.

(** Line 164. *)
Definition initial_frontier : gmap Z _Frontier := {[ 1 := mk_Frontier 0 [] ]}.

(** The two nested loops run over [levels] distance levels; the source
    runs them over [a_max + b_max + 1] levels. *)
Definition search (levels : Z) : Result Flow :=
  outer_loop (range 0 levels 1) initial_frontier.
End Search.

(** ** [_finalize] and [checkpoint_diff] *)

Section Diff.
(** [torch] is not part of the repository: the tensor type, [v.shape] and
    [torch.nn.functional.mse_loss(a, b).sqrt().item()] are parameters. The
    last one yields a Python float, an IEEE 754 binary64 number. *)
Context {Tensor : Type}.
Variable tensor_shape : Tensor → Shape.
Variable rmse : Tensor → Tensor → float.

(** [state_dict[key]] on a dictionary given by its [items()]. *)
Fixpoint dict_get (state_dict : list (string * Tensor)) (key : string)
  : Result Tensor :=
  match state_dict with
  | [] => Raise KeyError
  | (k, v) :: rest => if bool_decide (k = key) then Ok v else dict_get rest key
  end.

(** Lines 135-141, for one [step]. *)
Definition finalize_step (state_dict_a state_dict_b : list (string * Tensor))
    (step : Step) : Result Step :=
  match step with
  | Keep key shape =>
      a_tensor ← dict_get state_dict_a key;
      b_tensor ← dict_get state_dict_b key;
      let dist := rmse a_tensor b_tensor in
      if negb (dist =? 0)%float then Ok (Modify key shape dist) else Ok step
  | _ => Ok step
  end.

(** Lines 128-142: the steps are rewritten in place, front to back. *)
Fixpoint _finalize (history : list Step)
    (state_dict_a state_dict_b : list (string * Tensor)) : Result (list Step) :=
  match history with
  | [] => Ok []
  | step :: rest =>
      s ← finalize_step state_dict_a state_dict_b step;
      out ← _finalize rest state_dict_a state_dict_b;
      Ok (s :: out)
  end.

(** Lines 159-160. *)
Definition param_list (state_dict : list (string * Tensor)) : list Param :=
  (λ kv, (kv.1, tensor_shape kv.2)) <$> state_dict.

(** [checkpoint_diff] with the number of distance levels as an argument. *)
Definition checkpoint_diff_within (levels : Z)
    (state_dict_a state_dict_b : list (string * Tensor)) : Result (list Step) :=
  r ← search (param_list state_dict_a) (param_list state_dict_b) levels;
  match r with
  | Returned history => _finalize history state_dict_a state_dict_b
  | Next _ => Raise AssertionError
  end.

(** Lines 145-227. *)
Definition checkpoint_diff (state_dict_a state_dict_b : list (string * Tensor))
  : Result (list Step) :=
  checkpoint_diff_within
    (a_max (param_list state_dict_a) + b_max (param_list state_dict_b) + 1)
    state_dict_a state_dict_b.
End Diff.

(** ** [_finalize] with a distance that may raise

    The call of line 139 can fail: [torch] raises [RuntimeError] when the
    shapes of the two tensors cannot be broadcast together, or when the
    tensors do not hold floating-point numbers. Here the distance is a
    computation that returns a float or raises; [_finalize] above is the
    case of a distance that always returns. *)

Section Raising.
Context {Tensor : Type}.
Variable distance_of : Tensor → Tensor → Result float.

(** Lines 135-141, for one [step]. *)
Definition finalize_step_raising
    (state_dict_a state_dict_b : list (string * Tensor)) (step : Step) : Result Step :=
  match step with
  | Keep key shape =>
      a_tensor ← dict_get state_dict_a key;
      b_tensor ← dict_get state_dict_b key;
      dist ← distance_of a_tensor b_tensor;
      if negb (dist =? 0)%float then Ok (Modify key shape dist) else Ok step
  | _ => Ok step
  end.

(** Lines 128-142. *)
Fixpoint _finalize_raising (history : list Step)
    (state_dict_a state_dict_b : list (string * Tensor)) : Result (list Step) :=
  match history with
  | [] => Ok []
  | step :: rest =>
      s ← finalize_step_raising state_dict_a state_dict_b step;
      out ← _finalize_raising rest state_dict_a state_dict_b;
      Ok (s :: out)
  end.
End Raising.

(** ** A concrete tensor model: one-dimensional float64 tensors

    [torch] computes on a float64 tensor in IEEE 754 binary64 arithmetic,
    which Rocq's primitive floats implement. [mse_loss] with its default
    [reduction="mean"] is the sum of the squared differences divided by the
    number of elements; the order of the summation, which [torch] leaves
    open, plays no role for the tensors of at most one element on which the
    statements below evaluate the distance. *)

Module Float64.
Record Tensor : Type := mk_tensor { data : list float }.

(** [tuple(v.shape)] of a one-dimensional tensor. *)
Definition shape (t : Tensor) : Shape := [Z.of_nat (length (data t))].

Definition sum (l : list float) : float := foldl PrimFloat.add 0%float l.

(** The number of elements, as a float. *)
Definition numel (l : list float) : float := foldl (λ n _, (n + 1)%float) 0%float l.

(** [torch.nn.functional.mse_loss(a, b)] *)
Definition mse_loss (a b : Tensor) : float :=
  let sq := zip_with (λ u v, ((u - v) * (u - v))%float) (data a) (data b) in
  (sum sq / numel sq)%float.

(** [mse_loss(a, b).sqrt().item()] *)
Definition rmse (a b : Tensor) : float := PrimFloat.sqrt (mse_loss a b).

(** [checkpoint_diff] on dictionaries of such tensors. *)
Definition diff := checkpoint_diff shape rmse.

(** [torch.broadcast_tensors] on two one-dimensional tensors: equal lengths
    stay as they are, a tensor of length one is repeated to the length of
    the other, and any other pair of lengths raises. *)
Definition broadcast (a b : Tensor) : Result (Tensor * Tensor) :=
  let m := length (data a) in
  let n := length (data b) in
  if bool_decide (m = n) then Ok (a, b)
  else if bool_decide (m = 1%nat) then
    Ok (mk_tensor (mjoin (replicate n (data a))), b)
  else if bool_decide (n = 1%nat) then
    Ok (a, mk_tensor (mjoin (replicate m (data b))))
  else Raise RuntimeError.

(** Line 139 with the failure of the broadcast. *)
Definition rmse_raising (a b : Tensor) : Result float :=
  ab ← broadcast a b; Ok (rmse ab.1 ab.2).
End Float64.

(** ** Reference notions used by the statements *)

(** Length of a longest common subsequence, by the textbook recursion. *)
Fixpoint lcs_length (l1 l2 : list Param) {struct l1} : nat :=
  match l1 with
  | [] => 0
  | p :: l1' =>
      (fix inner (l2 : list Param) : nat :=
         match l2 with
         | [] => 0
         | q :: l2' =>
             if bool_decide (p = q) then S (lcs_length l1' l2')
             else Nat.max (lcs_length l1' l2) (inner l2')
         end) l2
  end%nat.

(** The part of a step that belongs to the first collection (a step that
    keeps or removes an element of A), and to the second one. *)
Definition a_part (s : Step) : option Param :=
  match s with
  | Keep k sh | Remove k sh | Modify k sh _ => Some (k, sh)
  | Insert _ _ => None
  end.

Definition b_part (s : Step) : option Param :=
  match s with
  | Keep k sh | Insert k sh | Modify k sh _ => Some (k, sh)
  | Remove _ _ => None
  end.

Definition proj_a (h : list Step) : list Param := omap a_part h.
Definition proj_b (h : list Step) : list Param := omap b_part h.

(** A step that is not a [Keep]; a [Modify] refines a [Keep]. *)
Definition is_edit (s : Step) : bool :=
  match s with
  | Insert _ _ | Remove _ _ => true
  | Keep _ _ | Modify _ _ _ => false
  end.

Definition edits (h : list Step) : nat := length (filter is_edit h).

Definition is_keep (s : Step) : bool :=
  match s with Keep _ _ => true | _ => false end.
Definition is_insert (s : Step) : bool :=
  match s with Insert _ _ => true | _ => false end.
Definition is_remove (s : Step) : bool :=
  match s with Remove _ _ => true | _ => false end.
Definition is_modify (s : Step) : bool :=
  match s with Modify _ _ _ => true | _ => false end.

(** How many steps of [h] satisfy [p]. *)
Definition count (p : Step → bool) (h : list Step) : nat := length (filter p h).

(** A history as the search builds it: no [Modify] yet. *)
Definition plain (h : list Step) : Prop := Forall (λ s, is_modify s = false) h.

Definition step_key (s : Step) : string :=
  match s with
  | Keep k _ | Insert k _ | Remove k _ | Modify k _ _ => k
  end.

(** The [i]-th diagonal visited at level [d]. *)
Definition diagonal (d : Z) (i : nat) : Z := - d + 2 * Z.of_nat i.

(** [s'] is [s], or the [Modify] that refines the [Keep] [s]. *)
Definition refines (s s' : Step) : Prop :=
  match s with
  | Keep k sh => s' = Keep k sh ∨ ∃ dist, s' = Modify k sh dist
  | _ => s' = s
  end.

(** The step built from an element [p] of a list: the source unpacks the
    pair into the key and the shape of the step. *)
Definition keep_of (p : Param) : Step := Keep p.1 p.2.
Definition insert_of (p : Param) : Step := Insert p.1 p.2.
Definition remove_of (p : Param) : Step := Remove p.1 p.2.

(** The longest common prefix of two lists. *)
Fixpoint common_prefix (l1 l2 : list Param) : list Param :=
  match l1, l2 with
  | p :: l1', q :: l2' =>
      if bool_decide (p = q) then p :: common_prefix l1' l2' else []
  | _, _ => []
  end.

(** No [Insert] is immediately followed by a [Remove]. *)
Definition removes_first (h : list Step) : Prop :=
  ∀ i s s', h !! i = Some s → h !! S i = Some s' →
            is_insert s = true → is_remove s' = false.

(** The last step of [h] is an [Insert]. *)
Definition ends_with_insert (h : list Step) : Prop :=
  ∃ s, last h = Some s ∧ is_insert s = true.

(** The element that a [Keep] or a [Modify] stands for: one that both
    collections hold. *)
Definition common_part (s : Step) : option Param :=
  match s with
  | Keep k sh | Modify k sh _ => Some (k, sh)
  | Insert _ _ | Remove _ _ => None
  end.

Definition proj_common (h : list Step) : list Param := omap common_part h.

(** [x] occurs in [l] at an earlier position than [y]. *)
Definition before {A} (x y : A) (l : list A) : Prop := [x; y] `sublist_of` l.

(** ** Example inputs *)

Module Examples.
Import Float64.

Definition t4 : Tensor := mk_tensor [1; 2; 3; 4]%float.
Definition t2 : Tensor := mk_tensor [1; 2]%float.
Definition t_nan : Tensor := mk_tensor [nan]%float.
Definition t_empty : Tensor := mk_tensor [].
Definition t_tiny : Tensor := mk_tensor [0x1p-600]%float.
Definition t_zero : Tensor := mk_tensor [0]%float.

Definition dict_a : list (string * Tensor) := [("w1", t4); ("w2", t4)]%string.
Definition dict_b : list (string * Tensor) := [("w1", t4); ("w2", t2)]%string.
Definition dict_c : list (string * Tensor) := [("v1", t2)]%string.
Definition dict_none : list (string * Tensor) := [].
Definition dict_nan : list (string * Tensor) := [("w", t_nan)]%string.
Definition dict_empty : list (string * Tensor) := [("w", t_empty)]%string.
Definition dict_tiny : list (string * Tensor) := [("w", t_tiny)]%string.
Definition dict_zero : list (string * Tensor) := [("w", t_zero)]%string.

(** [dict_a] with the weights of [w2] shifted by one half, and [dict_a] with
    its two parameters in the other order. *)
Definition t4_shifted : Tensor := mk_tensor [1.5; 2.5; 3.5; 4.5]%float.
Definition dict_shifted : list (string * Tensor) := [("w1", t4); ("w2", t4_shifted)]%string.
Definition dict_swapped : list (string * Tensor) := [("w2", t4); ("w1", t4)]%string.

(** Two [(key, shape)] lists on which the search reaches level 2. *)
Definition list_a : list Param := [("p", [1]); ("q", [1]); ("r", [1])]%string.
Definition list_b : list Param := [("z", [1]); ("p", [1]); ("q", [1])]%string.

Definition frontier_of (r : Result Flow) : gmap Z _Frontier :=
  match r with
  | Ok (Next F) => F
  | _ => ∅
  end.

(** The frontier after the levels [d = 0] and [d = 1], and after the
    iteration [d = 2], [k = -2], that is, when the iteration [d = 2],
    [k = 0] starts. *)
Definition frontier_1 : gmap Z _Frontier :=
  frontier_of (outer_loop list_a list_b (range 0 2 1) initial_frontier).
Definition frontier_2 : gmap Z _Frontier :=
  frontier_of (inner_loop list_a list_b 2 [-2] frontier_1).
End Examples.

(** ** Correctness of the search

    The search is Myers' algorithm on the edit graph of the two lists: the
    point [(x, y)] stands for the prefixes [a[:x]] and [b[:y]], and the
    frontier of level [d] holds, for every diagonal [k = x - y] of that
    level, the furthest point reached with [d] discrete moves. The code
    also follows diagonals beyond the last row or column of the graph
    ([y > b_max] or [x > a_max]); the histories it records there carry
    spurious steps, but no such point is ever returned: a point past the
    corner costs more moves than the corner itself, and the corner is
    reached first. *)

Section SearchCorrect.
Variables a b : list Param.

Abbreviation N := (a_max a).
Abbreviation M := (b_max b).

(** Points of the edit graph reachable from the origin with exactly [d]
    horizontal or vertical moves (diagonal moves over equal elements are
    free). *)
Inductive Reach : Z → Z → Z → Prop :=
| Reach_origin : Reach 0 0 0
| Reach_diag d x y :
    Reach d x y → x < N → y < M → a !! Z.to_nat x = b !! Z.to_nat y →
    Reach d (x + 1) (y + 1)
| Reach_right d x y : Reach d x y → x < N → Reach (d + 1) (x + 1) y
| Reach_down d x y : Reach d x y → y < M → Reach (d + 1) x (y + 1).

(** The path recorded for the point [(x, x - k)] at level [d]: the point
    lies in the first quadrant; some common subsequence of the two prefixes
    bounds the level from below; and when the point lies inside the graph,
    the history is an edit script with [d] edits that turns [a[:x]] into
    [b[:y]]. *)
Record PathOK (d k x : Z) (h : list Step) : Prop := {
  path_x : 0 ≤ x;
  path_y : 0 ≤ x - k;
  path_low : ∃ s : list Param,
    s `sublist_of` take (Z.to_nat x) a ∧ s `sublist_of` take (Z.to_nat (x - k)) b ∧
    x + (x - k) ≤ 2 * Z.of_nat (length s) + d;
  path_script : x ≤ N → x - k ≤ M →
    proj_a h = take (Z.to_nat x) a ∧ proj_b h = take (Z.to_nat (x - k)) b ∧
    Z.of_nat (edits h) = d;
  path_plain : plain h
}.

(** The [while] loop of lines 215-218 can go no further. *)
Definition maximal (k x : Z) : Prop :=
  ¬ (x < N ∧ x - k < M ∧ a !! Z.to_nat x = b !! Z.to_nat (x - k)).

(** No point of diagonal [k] reachable with [d] moves lies further right. *)
Definition furthest (d k x : Z) : Prop :=
  ∀ x' y', Reach d x' y' → x' - y' = k → x' ≤ x.

(** The test of line 220. *)
Definition terminal (k x : Z) : Prop := N ≤ x ∧ M ≤ x - k.

Definition PointOK (d k x : Z) (h : list Step) : Prop :=
  PathOK d k x h ∧ maximal k x ∧ furthest d k x.

(** [k] is one of [range(-d, d + 1, 2)]. *)
Definition on_level (d k : Z) : Prop := - d ≤ k ≤ d ∧ (k + d) `mod` 2 = 0.

(** Every diagonal of level [d] holds a finished, non-terminal point. *)
Definition LevelOK (d : Z) (F : gmap Z _Frontier) : Prop :=
  ∀ k, on_level d k →
    ∃ f, F !! k = Some f ∧ PointOK d k (fr_x f) (fr_history f) ∧
         ¬ terminal k (fr_x f).

(** What the frontier holds when level [d] starts. *)
Definition Prev (d : Z) (F : gmap Z _Frontier) : Prop :=
  (d = 0 ∧ F !! 1 = Some (mk_Frontier 0 [])) ∨ (1 ≤ d ∧ LevelOK (d - 1) F).

(** What the point chosen by lines 187-210 owes to the previous level. *)
Definition before_far (d k xs : Z) : Prop :=
  ∀ x' y', Reach (d - 1) x' y' →
    (x' - y' = k - 1 → x' + 1 ≤ xs) ∧ (x' - y' = k + 1 → x' ≤ xs).

(** The level at which the corner [(N, M)] is first reached. *)
Definition distance : Z := N + M - 2 * Z.of_nat (lcs_length a b).

(** What lines 187-218 compute at the iteration [(d, k)] from the frontier
    [F]: the point [(x, x - k)] and its history [h]. *)
Definition Trace (d k : Z) (F : gmap Z _Frontier) (x : Z) (h : list Step) : Prop :=
  ∃ (down : bool) (f : _Frontier) (hs : list Step),
    let xs := if down then fr_x f else fr_x f + 1 in
    go_down d k F = Ok down ∧
    F !! (if down then k + 1 else k - 1) = Some f ∧
    discrete_move a b down xs (xs - k) (fr_history f) = Ok hs ∧
    chew a b (Z.to_nat (N - xs)) xs (xs - k) hs = Ok (x, x - k, h).

(** The frontier after the first [j] diagonals of level [d]. *)
Definition Std (d : Z) (j : nat) (F : gmap Z _Frontier) : Prop :=
  Prev d F ∧
  ∀ i : nat, (i < j)%nat →
    ∃ f, F !! diagonal d i = Some f ∧
         PointOK d (diagonal d i) (fr_x f) (fr_history f) ∧
         ¬ terminal (diagonal d i) (fr_x f).

(** Every entry of level [d] satisfies [J]. *)
Definition LevelHolds (J : Z → Z → Z → list Step → Prop)
    (d : Z) (F : gmap Z _Frontier) : Prop :=
  ∀ k f, on_level d k → F !! k = Some f → J d k (fr_x f) (fr_history f).

(** The search explores the iteration [(d, k)] and enters it with the
    frontier [F]: [d] is one of [range(0, a_max + b_max + 1)], [k] is the
    [i]-th element of [range(-d, d + 1, 2)], and neither the levels before
    [d] nor the diagonals of level [d] before [k] have returned. *)
Definition explored (d k : Z) (F : gmap Z _Frontier) : Prop :=
  ∃ (i : nat) (F0 : gmap Z _Frontier),
    0 ≤ d ≤ N + M ∧ range (- d) (d + 1) 2 !! i = Some k ∧
    outer_loop a b (range 0 d 1) initial_frontier = Ok (Next F0) ∧
    inner_loop a b d (take i (range (- d) (d + 1) 2)) F0 = Ok (Next F).

(** The rest of the search after one iteration of level [d] with the
    outcome [r]: the diagonals [ks] that are left of level [d], then the
    levels [ds]. *)
Definition resume (d : Z) (ks ds : list Z) (r : Result Flow) : Result Flow :=
  r1 ← r;
  match r1 with
  | Returned history => Ok (Returned history)
  | Next F1 =>
      r2 ← inner_loop a b d ks F1;
      match r2 with
      | Returned history => Ok (Returned history)
      | Next F2 => outer_loop a b ds F2
      end
  end.

(** ** Basic facts *)

Lemma getitem_lookup {A} (l : list A) (i : Z) (v : A) :
  0 ≤ i → l !! Z.to_nat i = Some v → getitem l i = Ok v.
Proof.
  intros Hi Hl. unfold getitem.
  rewrite (bool_decide_eq_false_2 (i < 0)) by lia.
  rewrite bool_decide_eq_true_2 by lia. by rewrite Hl.
Qed.

Lemma range_unit (n : Z) : range 0 n 1 = Z.of_nat <$> seq 0 (Z.to_nat n).
Proof.
  unfold range. replace (n - 0 + 1 - 1) with n by lia. rewrite Z.div_1_r.
  apply list_fmap_ext. intros _ i _. lia.
Qed.

Lemma range_diagonals (d : Z) :
  0 ≤ d → range (- d) (d + 1) 2 = diagonal d <$> seq 0 (S (Z.to_nat d)).
Proof.
  intros Hd. unfold range. f_equal. f_equal.
  replace (d + 1 - - d + 2 - 1) with ((d + 1) * 2) by lia.
  rewrite Z.div_mul by lia. lia.
Qed.

Lemma lcs_length_cons (p q : Param) (l1 l2 : list Param) :
  lcs_length (p :: l1) (q :: l2) =
    if bool_decide (p = q) then S (lcs_length l1 l2)
    else Nat.max (lcs_length l1 (q :: l2)) (lcs_length (p :: l1) l2).
Proof. reflexivity. Qed.

Lemma lcs_length_nil_r (l : list Param) : lcs_length l [] = 0%nat.
Proof. by destruct l. Qed.

Lemma lcs_length_common (l1 l2 : list Param) :
  ∃ s, s `sublist_of` l1 ∧ s `sublist_of` l2 ∧ length s = lcs_length l1 l2.
Proof.
  revert l2. induction l1 as [|p l1 IH1]; intros l2.
  { exists []. split_and!; [constructor | apply sublist_nil_l | done]. }
  induction l2 as [|q l2 IH2].
  { exists []. split_and!; [apply sublist_nil_l | constructor | by rewrite lcs_length_nil_r]. }
  rewrite lcs_length_cons. case_bool_decide as Hpq.
  - subst q. destruct (IH1 l2) as (s & Ha & Hb & Hl).
    exists (p :: s). split_and!; [by constructor | by constructor | simpl; lia].
  - destruct (Nat.max_spec (lcs_length l1 (q :: l2)) (lcs_length (p :: l1) l2))
      as [[_ ->]|[_ ->]].
    + destruct IH2 as (s & Ha & Hb & Hl).
      exists s. split_and!; [done | by constructor | done].
    + destruct (IH1 (q :: l2)) as (s & Ha & Hb & Hl).
      exists s. split_and!; [by constructor | done | done].
Qed.

Lemma lcs_length_max (l1 l2 s : list Param) :
  s `sublist_of` l1 → s `sublist_of` l2 → (length s ≤ lcs_length l1 l2)%nat.
Proof.
  revert l2 s. induction l1 as [|p l1 IH1]; intros l2 s.
  { intros ->%sublist_nil_r _. simpl. lia. }
  induction l2 as [|q l2 IH2]; intros Ha Hb.
  { apply sublist_nil_r in Hb as ->. simpl. lia. }
  rewrite lcs_length_cons.
  apply sublist_cons_r in Ha as [Ha|(s1 & -> & Ha)].
  - pose proof (IH1 (q :: l2) s Ha Hb) as H1. case_bool_decide as Hpq; [|lia].
    subst q. apply sublist_cons_r in Hb as [Hb|(s2 & -> & Hb)].
    + pose proof (IH1 l2 s Ha Hb). lia.
    + assert (s2 `sublist_of` l1) as Ha'.
      { etrans; [|exact Ha]. by apply sublist_cons. }
      pose proof (IH1 l2 s2 Ha' Hb). simpl. lia.
  - apply sublist_cons_r in Hb as [Hb|(s2 & Heq & Hb)].
    + assert (p :: s1 `sublist_of` p :: l1) as Ha' by by constructor.
      pose proof (IH2 Ha' Hb) as H2. case_bool_decide; [|lia].
      subst q. assert (s1 `sublist_of` l2) as Hb'.
      { etrans; [|exact Hb]. by apply sublist_cons. }
      pose proof (IH1 l2 s1 Ha Hb'). simpl. lia.
    + injection Heq as <- <-. rewrite bool_decide_eq_true_2 by done.
      pose proof (IH1 l2 s1 Ha Hb). simpl. lia.
Qed.

Lemma proj_a_app h1 h2 : proj_a (h1 ++ h2) = proj_a h1 ++ proj_a h2.
Proof. apply omap_app. Qed.

Lemma proj_b_app h1 h2 : proj_b (h1 ++ h2) = proj_b h1 ++ proj_b h2.
Proof. apply omap_app. Qed.

Lemma edits_app h1 h2 : edits (h1 ++ h2) = (edits h1 + edits h2)%nat.
Proof. unfold edits. by rewrite filter_app, length_app. Qed.

Lemma plain_snoc h s : plain h → is_modify s = false → plain (h ++ [s]).
Proof. intros Hh Hs. apply Forall_app. split; [done | by constructor]. Qed.

Lemma edits_snoc h s :
  edits (h ++ [s]) = (edits h + if is_edit s then 1 else 0)%nat.
Proof. rewrite edits_app. by destruct s. Qed.

Lemma Reach_bounds d x y :
  Reach d x y → 0 ≤ x ≤ N ∧ 0 ≤ y ≤ M ∧ 0 ≤ d ∧ on_level d (x - y).
Proof. induction 1; unfold on_level, a_max, b_max in *; lia. Qed.

Lemma chew_eq fuel x y h :
  chew a b fuel x y h =
    if bool_decide (x < N) && bool_decide (y < M) then
      pa ← getitem a (one (x + 1));
      pb ← getitem b (one (y + 1));
      if bool_decide (pa = pb) then
        match fuel with
        | O => Raise OutOfFuel
        | S fuel' =>
            p ← getitem a (one (x + 1));
            chew a b fuel' (x + 1) (y + 1) (h ++ [Keep p.1 p.2])
        end
      else Ok (x, y, h)
    else Ok (x, y, h).
Proof. by destruct fuel. Qed.

Lemma take_succ (l : list Param) (x : Z) (p : Param) :
  0 ≤ x → l !! Z.to_nat x = Some p →
  take (Z.to_nat (x + 1)) l = take (Z.to_nat x) l ++ [p].
Proof.
  intros Hx Hl. replace (Z.to_nat (x + 1)) with (S (Z.to_nat x)) by lia.
  by apply take_S_r.
Qed.

Lemma take_sublist_mono (l : list Param) (i j : nat) :
  (i ≤ j)%nat → take i l `sublist_of` take j l.
Proof.
  intros Hij. replace i with (i `min` j)%nat by lia.
  rewrite <- take_take. apply sublist_take.
Qed.

Lemma PathOK_diag d k x h p :
  PathOK d k x h → x < N → x - k < M →
  a !! Z.to_nat x = Some p → b !! Z.to_nat (x - k) = Some p →
  PathOK d k (x + 1) (h ++ [Keep p.1 p.2]).
Proof.
  intros [Hx Hy (s & Hsa & Hsb & Hlen) Hscr Hpl] HxN HyM Ha Hb.
  split; [lia | lia | | | by apply plain_snoc];
    replace (x + 1 - k) with (x - k + 1) by lia.
  - exists (s ++ [p]).
    rewrite (take_succ a x p), (take_succ b (x - k) p) by done.
    split_and!; [by apply sublist_app | by apply sublist_app |].
    rewrite length_app. simpl. lia.
  - intros _ _. destruct Hscr as (Hpa & Hpb & He); [lia | lia |].
    rewrite proj_a_app, proj_b_app, edits_snoc, Hpa, Hpb.
    rewrite (take_succ a x p), (take_succ b (x - k) p) by done.
    destruct p. split_and!; [done | done | simpl; lia].
Qed.

Lemma chew_stop fuel x y h :
  ¬ (x < N ∧ y < M) → chew a b fuel x y h = Ok (x, y, h).
Proof.
  intros Hout. rewrite chew_eq.
  destruct (decide (x < N)) as [HxN|HxN].
  - rewrite (bool_decide_eq_true_2 _ HxN).
    by rewrite (bool_decide_eq_false_2 (y < M)) by tauto.
  - by rewrite (bool_decide_eq_false_2 _ HxN).
Qed.

Lemma chew_test fuel x y h pa pb :
  0 ≤ x → 0 ≤ y → x < N → y < M →
  a !! Z.to_nat x = Some pa → b !! Z.to_nat y = Some pb →
  chew a b fuel x y h =
    if bool_decide (pa = pb) then
      match fuel with
      | O => Raise OutOfFuel
      | S fuel' => chew a b fuel' (x + 1) (y + 1) (h ++ [Keep pa.1 pa.2])
      end
    else Ok (x, y, h).
Proof.
  intros Hx Hy HxN HyM Ha Hb. rewrite chew_eq.
  rewrite (bool_decide_eq_true_2 (x < N)), (bool_decide_eq_true_2 (y < M)) by done.
  unfold one. replace (x + 1 - 1) with x by lia. replace (y + 1 - 1) with y by lia.
  rewrite (getitem_lookup a x pa), (getitem_lookup b y pb) by done.
  simpl. by destruct fuel.
Qed.

Lemma chew_ok fuel d k x h :
  PathOK d k x h → (Z.to_nat (N - x) ≤ fuel)%nat →
  ∃ x' h', chew a b fuel x (x - k) h = Ok (x', x' - k, h') ∧
           x ≤ x' ∧ PathOK d k x' h' ∧ maximal k x'.
Proof.
  revert x h. induction fuel as [|fuel IH]; intros x h HP Hfuel.
  all: pose proof (path_x _ _ _ _ HP) as Hx; pose proof (path_y _ _ _ _ HP) as Hy.
  all: destruct (decide (x < N ∧ x - k < M)) as [[HxN HyM]|Hout];
    [|exists x, h; rewrite chew_stop by done;
      split_and!; [done | lia | done |]; unfold maximal; tauto].
  all: destruct (lookup_lt_is_Some_2 a (Z.to_nat x)) as [pa Hpa];
    [unfold a_max in HxN; lia|].
  all: destruct (lookup_lt_is_Some_2 b (Z.to_nat (x - k))) as [pb Hpb];
    [unfold b_max in HyM; lia|].
  all: rewrite (chew_test _ _ _ _ pa pb) by done.
  all: case_bool_decide as Hpq;
    [|exists x, h; split_and!; [done | lia | done |];
      unfold maximal; rewrite Hpa, Hpb; intros (_ & _ & [=]); done].
  - lia.
  - subst pb.
    destruct (IH (x + 1) (h ++ [Keep pa.1 pa.2])) as (x' & h' & Hc & Hle & HP' & Hm).
    { by apply PathOK_diag. }
    { lia. }
    replace (x + 1 - k) with (x - k + 1) in Hc by lia.
    exists x', h'. split_and!; [done | lia | done | done].
Qed.
Lemma furthest_after_chew d k xs x :
  0 ≤ xs → xs ≤ x → before_far d k xs → maximal k x → furthest d k x.
Proof.
  intros Hxs Hle Hfar Hmax x' y' HR.
  remember d as e eqn:He in HR. revert He.
  induction HR as [|e x0 y0 HR IH HxN HyM Heq|e x0 y0 HR _ _|e x0 y0 HR _ _];
    intros He Hk.
  - lia.
  - specialize (IH He). destruct (decide (x0 = x)) as [->|]; [|lia].
    exfalso. apply Hmax. replace (x - k) with y0 by lia. done.
  - replace e with (d - 1) in HR by lia.
    destruct (Hfar _ _ HR) as [H1 _]. lia.
  - replace e with (d - 1) in HR by lia.
    destruct (Hfar _ _ HR) as [_ H2]. lia.
Qed.

Lemma PathOK_down d k x h :
  PathOK (d - 1) (k + 1) x h →
  ∃ hs, discrete_move a b true x (x - k) h = Ok hs ∧ PathOK d k x hs.
Proof.
  intros [Hx Hy (s & Hsa & Hsb & Hlen) Hscr Hpl].
  assert (s `sublist_of` take (Z.to_nat (x - k)) b) as Hsb'.
  { etrans; [exact Hsb|]. apply take_sublist_mono. lia. }
  unfold discrete_move. rewrite (bool_decide_eq_true_2 (1 ≤ x - k)) by lia.
  destruct (decide (x - k ≤ M)) as [HyM|HyM].
  - rewrite (bool_decide_eq_true_2 _ HyM). simpl.
    destruct (lookup_lt_is_Some_2 b (Z.to_nat (x - k - 1))) as [p Hp];
      [unfold b_max in HyM; lia|].
    unfold one. rewrite (getitem_lookup b (x - k - 1) p) by (done || lia). simpl.
    eexists. split; [done|]. split; [lia | lia | | | by apply plain_snoc].
    + exists s. split_and!; [done | done | lia].
    + intros HxN _. destruct Hscr as (Hpa & Hpb & He); [lia | lia |].
      rewrite proj_a_app, proj_b_app, edits_snoc, Hpa, Hpb. simpl.
      replace (x - k) with (x - k - 1 + 1) by lia.
      rewrite (take_succ b (x - k - 1) p) by (done || lia).
      replace (x - (k + 1)) with (x - k - 1) by lia.
      destruct p. split_and!; [by rewrite app_nil_r | done | lia].
  - rewrite (bool_decide_eq_false_2 _ HyM). simpl.
    assert (∀ hs, plain hs → PathOK d k x hs) as HP.
    { intros hs Hhs. split; [lia | lia | | lia | done].
      exists s. split_and!; [done | done | lia]. }
    destruct (decide (1 ≤ x ∧ x ≤ N)) as [[Hx1 HxN]|Hout].
    + rewrite (bool_decide_eq_true_2 _ Hx1), (bool_decide_eq_true_2 _ HxN). simpl.
      destruct (lookup_lt_is_Some_2 a (Z.to_nat (x - 1))) as [p Hp];
        [unfold a_max in HxN; lia|].
      unfold one. rewrite (getitem_lookup a (x - 1) p) by (done || lia). simpl.
      eexists. split; [done | by apply HP, plain_snoc].
    + exists h. split; [|by apply HP].
      destruct (decide (1 ≤ x)) as [Hx1|Hx1].
      * rewrite (bool_decide_eq_true_2 _ Hx1).
        by rewrite (bool_decide_eq_false_2 (x ≤ N)) by tauto.
      * by rewrite (bool_decide_eq_false_2 _ Hx1).
Qed.

Lemma PathOK_right d k x h :
  PathOK (d - 1) (k - 1) x h →
  ∃ hs, discrete_move a b false (x + 1) (x + 1 - k) h = Ok hs ∧
        PathOK d k (x + 1) hs.
Proof.
  intros [Hx Hy (s & Hsa & Hsb & Hlen) Hscr Hpl].
  assert (s `sublist_of` take (Z.to_nat (x + 1)) a) as Hsa'.
  { etrans; [exact Hsa|]. apply take_sublist_mono. lia. }
  replace (x - (k - 1)) with (x + 1 - k) in * by lia.
  unfold discrete_move. rewrite andb_false_r.
  rewrite (bool_decide_eq_true_2 (1 ≤ x + 1)) by lia.
  destruct (decide (x + 1 ≤ N)) as [HxN|HxN].
  - rewrite (bool_decide_eq_true_2 _ HxN). simpl.
    destruct (lookup_lt_is_Some_2 a (Z.to_nat x)) as [p Hp];
      [unfold a_max in HxN; lia|].
    unfold one. replace (x + 1 - 1) with x by lia.
    rewrite (getitem_lookup a x p) by done. simpl.
    eexists. split; [done|]. split; [lia | lia | | | by apply plain_snoc].
    + exists s. split_and!; [done | done | lia].
    + intros _ HyM. destruct Hscr as (Hpa & Hpb & He); [lia | lia |].
      rewrite proj_a_app, proj_b_app, edits_snoc, Hpa, Hpb. simpl.
      rewrite (take_succ a x p) by done.
      destruct p. split_and!; [done | by rewrite app_nil_r | lia].
  - rewrite (bool_decide_eq_false_2 _ HxN). simpl.
    exists h. split; [done|]. split; [lia | lia | | lia | done].
    exists s. split_and!; [done | done | lia].
Qed.
Lemma frontier_get_Some (F : gmap Z _Frontier) k f :
  F !! k = Some f → frontier_get F k = Ok f.
Proof. unfold frontier_get. by intros ->. Qed.

(** Lines 187-210 under the loop invariant. *)
Lemma move_spec d k F :
  Prev d F → on_level d k →
  ∃ down xs h0 hs,
    go_down d k F = Ok down ∧ start_point k down F = Ok (xs, h0) ∧
    discrete_move a b down xs (xs - k) h0 = Ok hs ∧
    PathOK d k xs hs ∧ before_far d k xs.
Proof.
  intros [[-> HF]|[Hd HL]] [Hk Hpar].
  { assert (k = 0) as -> by lia.
    exists true, 0, [], []. unfold go_down, start_point.
    rewrite bool_decide_eq_true_2 by lia.
    rewrite (frontier_get_Some F (0 + 1) _ HF).
    split_and!; [done | done | done | |].
    - split; [lia | lia | | done | constructor].
      exists []. split_and!; [apply sublist_nil_l | apply sublist_nil_l | simpl; lia].
    - intros x' y' HR. apply Reach_bounds in HR. lia. }
  assert (∀ x' y' k', Reach (d - 1) x' y' → x' - y' = k' → on_level (d - 1) k')
    as Hlev.
  { intros x' y' k' HR <-. by apply Reach_bounds in HR as (_ & _ & _ & ?). }
  assert (k ≠ d → ∃ f, F !! (k + 1) = Some f ∧
            PathOK (d - 1) (k + 1) (fr_x f) (fr_history f) ∧
            furthest (d - 1) (k + 1) (fr_x f)) as Hup.
  { intros Hne. destruct (HL (k + 1)) as (f & Hf & (HP & _ & Hfar) & _).
    { unfold on_level. lia. }
    by exists f. }
  assert (k ≠ - d → ∃ f, F !! (k - 1) = Some f ∧
            PathOK (d - 1) (k - 1) (fr_x f) (fr_history f) ∧
            furthest (d - 1) (k - 1) (fr_x f)) as Hlo.
  { intros Hne. destruct (HL (k - 1)) as (f & Hf & (HP & _ & Hfar) & _).
    { unfold on_level. lia. }
    by exists f. }
  assert (∀ f2, F !! (k + 1) = Some f2 →
            PathOK (d - 1) (k + 1) (fr_x f2) (fr_history f2) →
            furthest (d - 1) (k + 1) (fr_x f2) →
            (∀ x' y', Reach (d - 1) x' y' → x' - y' = k - 1 → x' + 1 ≤ fr_x f2) →
            go_down d k F = Ok true →
            ∃ down xs h0 hs,
              go_down d k F = Ok down ∧ start_point k down F = Ok (xs, h0) ∧
              discrete_move a b down xs (xs - k) h0 = Ok hs ∧
              PathOK d k xs hs ∧ before_far d k xs) as Hdown.
  { intros f2 Hf2 HP2 Hfar2 Hfar1 Hgo.
    destruct (PathOK_down d k _ _ HP2) as (hs & Hmv & HP).
    exists true, (fr_x f2), (fr_history f2), hs. unfold start_point.
    rewrite (frontier_get_Some F _ _ Hf2).
    split_and!; [done | done | done | done |].
    intros x' y' HR. split; intros Hk'; [by eapply Hfar1 | by eapply Hfar2]. }
  assert (∀ f1, F !! (k - 1) = Some f1 →
            PathOK (d - 1) (k - 1) (fr_x f1) (fr_history f1) →
            furthest (d - 1) (k - 1) (fr_x f1) →
            (∀ x' y', Reach (d - 1) x' y' → x' - y' = k + 1 → x' ≤ fr_x f1 + 1) →
            go_down d k F = Ok false →
            ∃ down xs h0 hs,
              go_down d k F = Ok down ∧ start_point k down F = Ok (xs, h0) ∧
              discrete_move a b down xs (xs - k) h0 = Ok hs ∧
              PathOK d k xs hs ∧ before_far d k xs) as Hright.
  { intros f1 Hf1 HP1 Hfar1 Hfar2 Hgo.
    destruct (PathOK_right d k _ _ HP1) as (hs & Hmv & HP).
    exists false, (fr_x f1 + 1), (fr_history f1), hs. unfold start_point.
    rewrite (frontier_get_Some F _ _ Hf1).
    split_and!; [done | done | done | done |].
    intros x' y' HR. split; intros Hk'; [|by eapply Hfar2].
    specialize (Hfar1 _ _ HR Hk'). lia. }
  destruct (decide (k = - d)) as [Hkd|Hkd].
  { destruct Hup as (f2 & Hf2 & HP2 & Hfar2); [lia|].
    apply (Hdown f2); [done | done | done | |].
    - intros x' y' HR Hk'. apply (Hlev _ _ _ HR) in Hk'. unfold on_level in Hk'. lia.
    - unfold go_down. by rewrite bool_decide_eq_true_2. }
  destruct (Hlo Hkd) as (f1 & Hf1 & HP1 & Hfar1).
  destruct (decide (k = d)) as [Hkd'|Hkd'].
  { apply (Hright f1); [done | done | done | |].
    - intros x' y' HR Hk'. apply (Hlev _ _ _ HR) in Hk'. unfold on_level in Hk'. lia.
    - unfold go_down. rewrite bool_decide_eq_false_2 by done.
      rewrite (bool_decide_eq_false_2 (k ≠ d)) by tauto. done. }
  destruct (Hup Hkd') as (f2 & Hf2 & HP2 & Hfar2).
  assert (go_down d k F = Ok (bool_decide (fr_x f1 < fr_x f2))) as Hgo.
  { unfold go_down. rewrite bool_decide_eq_false_2 by done.
    rewrite (bool_decide_eq_true_2 (k ≠ d)) by done.
    by rewrite (frontier_get_Some F _ _ Hf1), (frontier_get_Some F _ _ Hf2). }
  destruct (decide (fr_x f1 < fr_x f2)) as [Hlt|Hge].
  - apply (Hdown f2); [done | done | done | |].
    + intros x' y' HR Hk'. specialize (Hfar1 _ _ HR Hk'). lia.
    + by rewrite Hgo, bool_decide_eq_true_2.
  - apply (Hright f1); [done | done | done | |].
    + intros x' y' HR Hk'. specialize (Hfar2 _ _ HR Hk'). lia.
    + by rewrite Hgo, bool_decide_eq_false_2.
Qed.

(** One iteration of the inner loop under the loop invariant. *)
Lemma body_spec d k F :
  Prev d F → on_level d k →
  ∃ x h, PointOK d k x h ∧
    ((terminal k x ∧ body a b d k F = Ok (Returned h)) ∨
     (¬ terminal k x ∧ body a b d k F = Ok (Next (<[k := mk_Frontier x h]> F)))).
Proof.
  intros HF Hk.
  destruct (move_spec d k F HF Hk) as (down & xs & h0 & hs & Hgo & Hst & Hmv & HP & Hfar).
  destruct (chew_ok (Z.to_nat (N - xs)) d k xs hs HP) as (x & h & Hc & Hle & HP' & Hmax);
    [done|].
  exists x, h. split.
  { split_and!; [done | done |].
    eapply furthest_after_chew; [apply (path_x _ _ _ _ HP) | done..]. }
  unfold body. rewrite Hgo. simpl. rewrite Hst. simpl. rewrite Hmv. simpl.
  rewrite Hc. simpl. unfold terminal.
  destruct (decide (N ≤ x ∧ M ≤ x - k)) as [[H1 H2]|Hout].
  - left. by rewrite (bool_decide_eq_true_2 _ H1), (bool_decide_eq_true_2 _ H2).
  - right. split; [done|].
    destruct (decide (N ≤ x)) as [H1|H1].
    + rewrite (bool_decide_eq_true_2 _ H1).
      by rewrite (bool_decide_eq_false_2 (M ≤ x - k)) by tauto.
    + by rewrite (bool_decide_eq_false_2 _ H1).
Qed.
Lemma Reach_eq d x y d' x' y' :
  Reach d x y → d = d' → x = x' → y = y' → Reach d' x' y'.
Proof. by intros ? <- <- <-. Qed.

Lemma Reach_common (a1 b1 s : list Param) :
  a1 `prefix_of` a → b1 `prefix_of` b →
  s `sublist_of` a1 → s `sublist_of` b1 →
  Reach (Z.of_nat (length a1) + Z.of_nat (length b1) - 2 * Z.of_nat (length s))
    (Z.of_nat (length a1)) (Z.of_nat (length b1)).
Proof.
  assert (∀ (l l1 : list Param) p, l1 ++ [p] `prefix_of` l →
            Z.of_nat (length l1) < Z.of_nat (length l) ∧
            l !! Z.to_nat (Z.of_nat (length l1)) = Some p ∧ l1 `prefix_of` l) as Hpre.
  { intros l l1 p [t ->]. rewrite <- !app_assoc, length_app, Nat2Z.id. simpl.
    split_and!; [lia | by rewrite list_lookup_middle | by eexists]. }
  assert (∀ (l : list Param) p t, t `sublist_of` l ++ [p] →
            t `sublist_of` l ∨ ∃ t', t = t' ++ [p] ∧ t' `sublist_of` l) as Hsub.
  { intros l p t (t1 & t2 & -> & H1 & H2)%sublist_app_r.
    apply sublist_cons_r in H2 as [->%sublist_nil_r|(t' & -> & ->%sublist_nil_r)].
    - left. by rewrite app_nil_r.
    - right. by exists t1. }
  revert b1 s. induction a1 as [|p a1 IHa] using rev_ind; intros b1 s Ha Hb Hsa Hsb.
  { apply sublist_nil_r in Hsa as ->. clear Hsb Ha.
    induction b1 as [|q b1 IHb] using rev_ind; [apply Reach_origin|].
    destruct (Hpre _ _ _ Hb) as (Hlt & _ & Hb'). specialize (IHb Hb').
    eapply Reach_eq; [apply (Reach_down _ _ _ IHb); done|..];
      rewrite ?length_app; simpl; lia. }
  destruct (Hpre _ _ _ Ha) as (Hlta & Hla & Ha').
  assert (∀ b1 s, b1 `prefix_of` b → s `sublist_of` a1 → s `sublist_of` b1 →
            Reach (Z.of_nat (length a1) + Z.of_nat (length b1) - 2 * Z.of_nat (length s))
              (Z.of_nat (length a1)) (Z.of_nat (length b1))) as IHa'.
  { intros b2 s2. by apply IHa. }
  clear IHa. rename IHa' into IHa.
  assert (∀ b1 s, b1 `prefix_of` b → s `sublist_of` a1 → s `sublist_of` b1 →
            Reach (Z.of_nat (length (a1 ++ [p])) + Z.of_nat (length b1)
                   - 2 * Z.of_nat (length s))
              (Z.of_nat (length (a1 ++ [p]))) (Z.of_nat (length b1))) as Hskip.
  { intros b2 s2 Hb2 Hs1 Hs2. specialize (IHa b2 s2 Hb2 Hs1 Hs2).
    eapply Reach_eq; [apply (Reach_right _ _ _ IHa); done|..];
      rewrite ?length_app; simpl; lia. }
  clear Ha. revert s Hb Hsa Hsb.
  induction b1 as [|q b1 IHb] using rev_ind; intros s Hb Hsa Hsb.
  { apply sublist_nil_r in Hsb as ->. apply Hskip; [done | apply sublist_nil_l | done]. }
  destruct (Hpre _ _ _ Hb) as (Hltb & Hlb & Hb').
  apply Hsub in Hsa as [Hsa|(s1 & -> & Hsa)].
  { by apply Hskip. }
  apply Hsub in Hsb as [Hsb|(s2 & Heq & Hsb)].
  { assert (s1 ++ [p] `sublist_of` a1 ++ [p]) as Hsa'.
    { apply sublist_app; [done | by constructor]. }
    specialize (IHb (s1 ++ [p]) Hb' Hsa' Hsb).
    eapply Reach_eq; [apply (Reach_down _ _ _ IHb); done|..];
      rewrite ?length_app; simpl; lia. }
  apply app_inj_tail in Heq as [<- <-].
  specialize (IHa b1 s1 Hb' Hsa Hsb).
  eapply Reach_eq; [apply (Reach_diag _ _ _ IHa); [done | done | by rewrite Hla, Hlb]|..];
    rewrite ?length_app; simpl; lia.
Qed.

Lemma Reach_corner : Reach distance N M.
Proof.
  destruct (lcs_length_common a b) as (s & Hsa & Hsb & Hlen).
  unfold distance. rewrite <- Hlen. by apply Reach_common.
Qed.

Lemma terminal_level d k x h :
  PointOK d k x h → terminal k x → distance ≤ d.
Proof.
  intros [[_ _ (s & Hsa & Hsb & Hlen) _ _] _] [HxN HyM].
  assert (length s ≤ lcs_length a b)%nat.
  { apply lcs_length_max;
      [etrans; [exact Hsa|] | etrans; [exact Hsb|]]; apply sublist_take. }
  unfold distance. lia.
Qed.

Lemma terminal_exact k x h :
  PointOK distance k x h → terminal k x →
  proj_a h = a ∧ proj_b h = b ∧ Z.of_nat (edits h) = distance ∧ plain h.
Proof.
  intros [[_ _ (s & Hsa & Hsb & Hlen) Hscr Hpl] _] [HxN HyM].
  assert (length s ≤ lcs_length a b)%nat.
  { apply lcs_length_max;
      [etrans; [exact Hsa|] | etrans; [exact Hsb|]]; apply sublist_take. }
  unfold distance in *.
  destruct Hscr as (Hpa & Hpb & He); [lia | lia |].
  rewrite take_ge in Hpa by (unfold a_max in *; lia).
  rewrite take_ge in Hpb by (unfold b_max in *; lia).
  done.
Qed.

Lemma LevelOK_distance F : ¬ LevelOK distance F.
Proof.
  intros HL. pose proof Reach_corner as HR.
  pose proof (Reach_bounds _ _ _ HR) as (_ & _ & _ & Hlev).
  destruct (HL _ Hlev) as (f & _ & (_ & _ & Hfar) & Hterm).
  specialize (Hfar _ _ HR eq_refl). apply Hterm. unfold terminal. lia.
Qed.

Lemma distance_nonneg : 0 ≤ distance.
Proof. pose proof (Reach_bounds _ _ _ Reach_corner). lia. Qed.

Lemma distance_le : distance ≤ N + M.
Proof. unfold distance. lia. Qed.

Lemma inner_spec d n j F :
  0 ≤ d → (j + n = S (Z.to_nat d))%nat → Prev d F →
  (∀ i : nat, (i < j)%nat →
     ∃ f, F !! diagonal d i = Some f ∧
          PointOK d (diagonal d i) (fr_x f) (fr_history f) ∧
          ¬ terminal (diagonal d i) (fr_x f)) →
  (∃ h k x, inner_loop a b d (diagonal d <$> seq j n) F = Ok (Returned h) ∧
            PointOK d k x h ∧ terminal k x) ∨
  (∃ F', inner_loop a b d (diagonal d <$> seq j n) F = Ok (Next F') ∧ LevelOK d F').
Proof.
  intros Hd. revert j F. induction n as [|n IH]; intros j F Hjn HF Hdone.
  { right. exists F. split; [done|]. intros k [Hk Hpar].
    destruct (Hdone (Z.to_nat ((k + d) `div` 2))) as (f & Hf & HP); [lia|].
    replace (diagonal d (Z.to_nat ((k + d) `div` 2))) with k in *
      by (unfold diagonal; lia).
    by exists f. }
  simpl.
  assert (on_level d (diagonal d j)) as Hlev by (unfold on_level, diagonal; lia).
  destruct (body_spec d _ F HF Hlev) as (x & h & HP & [[Ht ->]|[Ht ->]]); simpl.
  { left. by exists h, (diagonal d j), x. }
  apply IH; [lia | |].
  - destruct HF as [[-> HF]|[Hd1 HL]]; [left|right].
    + split; [done|]. rewrite lookup_insert_ne; [done | unfold diagonal; lia].
    + split; [done|]. intros k' [Hk' Hpar'].
      rewrite lookup_insert_ne; [|unfold diagonal; lia]. by apply HL.
  - intros i Hi. destruct (decide (i = j)) as [->|Hij].
    + rewrite lookup_insert_eq. by eexists.
    + rewrite lookup_insert_ne; [|unfold diagonal; lia]. apply Hdone. lia.
Qed.

Lemma outer_spec n (d0 : nat) F :
  Prev (Z.of_nat d0) F → Z.of_nat d0 ≤ distance + 1 →
  (∃ h k x, outer_loop a b (Z.of_nat <$> seq d0 n) F = Ok (Returned h) ∧
            distance < Z.of_nat (d0 + n) ∧
            PointOK distance k x h ∧ terminal k x) ∨
  (∃ F', outer_loop a b (Z.of_nat <$> seq d0 n) F = Ok (Next F') ∧
         Prev (Z.of_nat (d0 + n)) F' ∧ Z.of_nat (d0 + n) ≤ distance).
Proof.
  pose proof distance_nonneg as Hnn.
  revert d0 F. induction n as [|n IH]; intros d0 F HF Hd0.
  all: assert (Z.of_nat d0 ≤ distance) as Hle.
  1,3: destruct (decide (Z.of_nat d0 = distance + 1)) as [Heq|]; [|lia];
    destruct HF as [[? _]|[_ HL]]; [lia|];
    replace (Z.of_nat d0 - 1) with distance in HL by lia;
    by apply LevelOK_distance in HL.
  { right. exists F. by rewrite Nat.add_0_r. }
  simpl. rewrite range_diagonals by lia.
  destruct (inner_spec (Z.of_nat d0) (S (Z.to_nat (Z.of_nat d0))) 0 F)
    as [(h & k & x & -> & HP & Ht)|(F' & -> & HL)]; [lia | lia | done | lia | |]; simpl.
  { left. pose proof (terminal_level _ _ _ _ HP Ht).
    assert (Z.of_nat d0 = distance) as Heq by lia. rewrite Heq in HP.
    exists h, k, x. split_and!; [done | lia | done | done]. }
  replace (d0 + S n)%nat with (S d0 + n)%nat by lia.
  apply IH.
  - right. split; [lia|]. by replace (Z.of_nat (S d0) - 1) with (Z.of_nat d0) by lia.
  - destruct (decide (Z.of_nat d0 = distance)) as [Heq|]; [|lia].
    rewrite Heq in HL. by apply LevelOK_distance in HL.
Qed.

(** The search returns at level [distance], and only there. *)
Lemma search_found levels :
  distance < levels →
  ∃ h, search a b levels = Ok (Returned h) ∧
       proj_a h = a ∧ proj_b h = b ∧ Z.of_nat (edits h) = distance ∧ plain h.
Proof.
  intros Hlev. unfold search. rewrite range_unit.
  destruct (outer_spec (Z.to_nat levels) 0 initial_frontier)
    as [(h & k & x & Ho & _ & HP & Ht)|(F' & _ & _ & Hle)].
  - by left.
  - pose proof distance_nonneg. lia.
  - exists h. split; [done|]. by eapply terminal_exact.
  - pose proof distance_nonneg. lia.
Qed.

Lemma search_exhausted levels :
  levels ≤ distance → ∃ F, search a b levels = Ok (Next F).
Proof.
  intros Hlev. unfold search. rewrite range_unit.
  destruct (outer_spec (Z.to_nat levels) 0 initial_frontier)
    as [(h & k & x & _ & Hlt & _)|(F' & Ho & _)].
  - by left.
  - pose proof distance_nonneg. lia.
  - pose proof distance_nonneg. lia.
  - by exists F'.
Qed.
(** ** Invariants of the frontier entries *)

Lemma common_prefix_l (l1 l2 : list Param) : common_prefix l1 l2 `prefix_of` l1.
Proof.
  revert l2. induction l1 as [|p l1 IH]; intros [|q l2]; simpl;
    try apply prefix_nil.
  case_bool_decide; [by apply prefix_cons | apply prefix_nil].
Qed.

Lemma common_prefix_r (l1 l2 : list Param) : common_prefix l1 l2 `prefix_of` l2.
Proof.
  revert l2. induction l1 as [|p l1 IH]; intros [|q l2]; simpl;
    try apply prefix_nil.
  case_bool_decide as Hpq; [subst q; by apply prefix_cons | apply prefix_nil].
Qed.

(** The [while] loop appends a [Keep] for every element of the longest
    common prefix of what is left of the two lists. *)
Lemma chew_common fuel x y h r :
  0 ≤ x → 0 ≤ y → chew a b fuel x y h = Ok r →
  r = (x + Z.of_nat (length (common_prefix (drop (Z.to_nat x) a) (drop (Z.to_nat y) b))),
       y + Z.of_nat (length (common_prefix (drop (Z.to_nat x) a) (drop (Z.to_nat y) b))),
       h ++ (keep_of <$> common_prefix (drop (Z.to_nat x) a) (drop (Z.to_nat y) b))).
Proof.
  assert (∀ x y h, (x, y, h) = (x + Z.of_nat (length (@nil Param)),
                                y + Z.of_nat (length (@nil Param)),
                                h ++ (keep_of <$> [])) :> Z * Z * list Step) as Hnil.
  { intros x' y' h'. simpl. rewrite app_nil_r. do 2 f_equal; lia. }
  revert x y h. induction fuel as [|fuel IH]; intros x y h Hx Hy Hc.
  all: destruct (decide (x < N ∧ y < M)) as [[HxN HyM]|Hout].
  2,4: rewrite chew_stop in Hc by done; injection Hc as <-;
    assert (drop (Z.to_nat x) a = [] ∨ drop (Z.to_nat y) b = []) as [-> | ->]
      by (destruct (decide (x < N)); [right|left]; apply drop_ge;
          unfold a_max, b_max in *; lia);
    [|destruct (drop (Z.to_nat x) a)]; apply Hnil.
  all: destruct (lookup_lt_is_Some_2 a (Z.to_nat x)) as [pa Hpa];
    [unfold a_max in HxN; lia|].
  all: destruct (lookup_lt_is_Some_2 b (Z.to_nat y)) as [pb Hpb];
    [unfold b_max in HyM; lia|].
  all: rewrite (chew_test _ _ _ _ pa pb) in Hc by done.
  all: rewrite (drop_S a pa _ Hpa), (drop_S b pb _ Hpb); simpl.
  all: case_bool_decide as Hpq; case_bool_decide as Hpq'; try done.
  1,3: injection Hc as <-; apply Hnil.
  subst pb. apply IH in Hc; [|lia..].
  replace (Z.to_nat (x + 1)) with (S (Z.to_nat x)) in Hc by lia.
  replace (Z.to_nat (y + 1)) with (S (Z.to_nat y)) in Hc by lia.
  rewrite Hc, <- app_assoc. simpl length.
  set (n := length _).
  replace (x + 1 + Z.of_nat n) with (x + Z.of_nat (S n)) by lia.
  by replace (y + 1 + Z.of_nat n) with (y + Z.of_nat (S n)) by lia.
Qed.

(** Diagonal moves over a common prefix stay reachable. *)
Lemma Reach_common_prefix d x y (n : nat) :
  0 ≤ x → 0 ≤ y →
  (n ≤ length (common_prefix (drop (Z.to_nat x) a) (drop (Z.to_nat y) b)))%nat →
  Reach d x y → Reach d (x + Z.of_nat n) (y + Z.of_nat n).
Proof.
  intros Hx Hy. set (cp := common_prefix _ _). intros Hn HR.
  induction n as [|n IH].
  { eapply Reach_eq; [exact HR | lia..]. }
  specialize (IH ltac:(lia)).
  destruct (lookup_lt_is_Some_2 cp n) as [p Hp]; [lia|].
  assert (a !! Z.to_nat (x + Z.of_nat n) = Some p) as Ha.
  { pose proof (common_prefix_l (drop (Z.to_nat x) a) (drop (Z.to_nat y) b)) as Hpre.
    apply (prefix_lookup_Some _ _ _ _ Hp) in Hpre. rewrite lookup_drop in Hpre.
    by replace (Z.to_nat (x + Z.of_nat n)) with (Z.to_nat x + n)%nat by lia. }
  assert (b !! Z.to_nat (y + Z.of_nat n) = Some p) as Hb.
  { pose proof (common_prefix_r (drop (Z.to_nat x) a) (drop (Z.to_nat y) b)) as Hpre.
    apply (prefix_lookup_Some _ _ _ _ Hp) in Hpre. rewrite lookup_drop in Hpre.
    by replace (Z.to_nat (y + Z.of_nat n)) with (Z.to_nat y + n)%nat by lia. }
  eapply Reach_eq; [apply (Reach_diag _ _ _ IH)|lia..].
  - apply lookup_lt_Some in Ha. unfold a_max. lia.
  - apply lookup_lt_Some in Hb. unfold b_max. lia.
  - by rewrite Ha, Hb.
Qed.

(** One iteration under the loop invariant, with what it computed. *)
Lemma body_trace d k F :
  Prev d F → on_level d k →
  ∃ x h, Trace d k F x h ∧ PointOK d k x h ∧
    ((terminal k x ∧ body a b d k F = Ok (Returned h)) ∨
     (¬ terminal k x ∧ body a b d k F = Ok (Next (<[k := mk_Frontier x h]> F)))).
Proof.
  intros HF Hk.
  destruct (move_spec d k F HF Hk) as (down & xs & h0 & hs & Hgo & Hst & Hmv & HP & Hfar).
  destruct (chew_ok (Z.to_nat (N - xs)) d k xs hs HP) as (x & h & Hc & Hle & HP' & Hmax);
    [done|].
  exists x, h. split_and!.
  - unfold start_point, frontier_get in Hst. exists down.
    destruct down.
    + destruct (F !! (k + 1)) as [f|] eqn:Hf; simpl in Hst; [|done].
      injection Hst as <- <-. by exists f, hs.
    + destruct (F !! (k - 1)) as [f|] eqn:Hf; simpl in Hst; [|done].
      injection Hst as <- <-. by exists f, hs.
  - split_and!; [done | done |].
    eapply furthest_after_chew; [apply (path_x _ _ _ _ HP) | done..].
  - unfold body. rewrite Hgo. simpl. rewrite Hst. simpl. rewrite Hmv. simpl.
    rewrite Hc. simpl. unfold terminal.
    destruct (decide (N ≤ x ∧ M ≤ x - k)) as [[H1 H2]|Hout].
    + left. by rewrite (bool_decide_eq_true_2 _ H1), (bool_decide_eq_true_2 _ H2).
    + right. split; [done|].
      destruct (decide (N ≤ x)) as [H1|H1].
      * rewrite (bool_decide_eq_true_2 _ H1).
        by rewrite (bool_decide_eq_false_2 (M ≤ x - k)) by tauto.
      * by rewrite (bool_decide_eq_false_2 _ H1).
Qed.

(** Invariant rules for the two loops with their early [return]. *)
Lemma inner_loop_rule (I : nat → gmap Z _Frontier → Prop) (Q : list Step → Prop)
    d n j F :
  I j F →
  (∀ i G, (j ≤ i < j + n)%nat → I i G →
     (∃ h, body a b d (diagonal d i) G = Ok (Returned h) ∧ Q h) ∨
     (∃ G', body a b d (diagonal d i) G = Ok (Next G') ∧ I (S i) G')) →
  (∃ h, inner_loop a b d (diagonal d <$> seq j n) F = Ok (Returned h) ∧ Q h) ∨
  (∃ F', inner_loop a b d (diagonal d <$> seq j n) F = Ok (Next F') ∧
         I (j + n)%nat F').
Proof.
  revert j F. induction n as [|n IH]; intros j F HI Hstep.
  { right. exists F. split; [done|]. by rewrite Nat.add_0_r. }
  simpl. destruct (Hstep j F) as [(h & -> & HQ)|(G' & -> & HI')]; [lia | done | |]; simpl.
  { left. by exists h. }
  replace (j + S n)%nat with (S j + n)%nat by lia.
  apply IH; [done|]. intros i G Hi. apply Hstep. lia.
Qed.

Lemma outer_loop_rule (I : nat → gmap Z _Frontier → Prop) (Q : list Step → Prop)
    n d0 F :
  I d0 F →
  (∀ (d : nat) G, (d0 ≤ d < d0 + n)%nat → I d G →
     (∃ h, inner_loop a b (Z.of_nat d) (range (- Z.of_nat d) (Z.of_nat d + 1) 2) G
             = Ok (Returned h) ∧ Q h) ∨
     (∃ G', inner_loop a b (Z.of_nat d) (range (- Z.of_nat d) (Z.of_nat d + 1) 2) G
              = Ok (Next G') ∧ I (S d) G')) →
  (∃ h, outer_loop a b (Z.of_nat <$> seq d0 n) F = Ok (Returned h) ∧ Q h) ∨
  (∃ F', outer_loop a b (Z.of_nat <$> seq d0 n) F = Ok (Next F') ∧
         I (d0 + n)%nat F').
Proof.
  revert d0 F. induction n as [|n IH]; intros d0 F HI Hstep.
  { right. exists F. split; [done|]. by rewrite Nat.add_0_r. }
  simpl. destruct (Hstep d0 F) as [(h & -> & HQ)|(G' & -> & HI')]; [lia | done | |]; simpl.
  { left. by exists h. }
  replace (d0 + S n)%nat with (S d0 + n)%nat by lia.
  apply IH; [done|]. intros d G Hd. apply Hstep. lia.
Qed.

Lemma Std_start d F : Prev d F → Std d 0 F.
Proof. intros HF. split; [done|]. intros i Hi. lia. Qed.

Lemma Std_insert d (j : nat) F x h :
  Std d j F → PointOK d (diagonal d j) x h → ¬ terminal (diagonal d j) x →
  Std d (S j) (<[diagonal d j := mk_Frontier x h]> F).
Proof.
  intros [HF Hdone] HP Ht. split.
  - destruct HF as [[-> HF]|[Hd1 HL]]; [left|right].
    + split; [done|]. rewrite lookup_insert_ne; [done | unfold diagonal; lia].
    + split; [done|]. intros k' [Hk' Hpar'].
      rewrite lookup_insert_ne; [|unfold diagonal; lia]. by apply HL.
  - intros i Hi. destruct (decide (i = j)) as [->|Hij].
    + rewrite lookup_insert_eq. by eexists.
    + rewrite lookup_insert_ne; [|unfold diagonal; lia]. apply Hdone. lia.
Qed.

Lemma Std_level d F : 0 ≤ d → Std d (S (Z.to_nat d)) F → LevelOK d F.
Proof.
  intros Hd [_ Hdone] k [Hk Hpar].
  destruct (Hdone (Z.to_nat ((k + d) `div` 2))) as (f & Hf & HP); [lia|].
  replace (diagonal d (Z.to_nat ((k + d) `div` 2))) with k in *
    by (unfold diagonal; lia).
  by exists f.
Qed.

Lemma terminal_corner k x h :
  PointOK distance k x h → terminal k x → x = N ∧ k = N - M.
Proof.
  intros [[_ _ (s & Hsa & Hsb & Hlen) _ _] _] [HxN HyM].
  assert (length s ≤ lcs_length a b)%nat.
  { apply lcs_length_max;
      [etrans; [exact Hsa|] | etrans; [exact Hsb|]]; apply sublist_take. }
  unfold distance in *. lia.
Qed.

Section EntryInvariant.
Variable J : Z → Z → Z → list Step → Prop.
Hypothesis J_first : ∀ F x h,
  F !! 1 = Some (mk_Frontier 0 []) → Trace 0 0 F x h → J 0 0 x h.
Hypothesis J_next : ∀ d k F x h,
  1 ≤ d → on_level d k → LevelOK (d - 1) F → LevelHolds J (d - 1) F →
  Trace d k F x h → PointOK d k x h → J d k x h.

(** An invariant of the entries that holds at level 0 and passes from one
    level to the next holds for the history the search returns. *)
Lemma search_invariant levels h :
  search a b levels = Ok (Returned h) → J distance (N - M) N h.
Proof.
  unfold search. rewrite range_unit. intros Hs.
  pose proof distance_nonneg as Hnn.
  set (OI := λ (d : nat) (F : gmap Z _Frontier),
         Prev (Z.of_nat d) F ∧ (d = 0%nat ∨ LevelHolds J (Z.of_nat d - 1) F) ∧
         Z.of_nat d ≤ distance + 1).
  destruct (outer_loop_rule OI (J distance (N - M) N) (Z.to_nat levels) 0 initial_frontier)
    as [(h' & Hh' & HQ)|(F' & HF' & _)]; [| |congruence|congruence].
  { split_and!; [by left | by left | lia]. }
  intros d G _ (HG & HJ & Hd).
  assert (Z.of_nat d ≤ distance) as Hle.
  { destruct (decide (Z.of_nat d = distance + 1)) as [Heq|]; [|lia].
    destruct HG as [[? _]|[_ HL]]; [lia|].
    replace (Z.of_nat d - 1) with distance in HL by lia.
    by apply LevelOK_distance in HL. }
  rewrite range_diagonals by lia.
  set (II := λ (j : nat) (F : gmap Z _Frontier),
         Std (Z.of_nat d) j F ∧ (d = 0%nat ∨ LevelHolds J (Z.of_nat d - 1) F) ∧
         ∀ i f, (i < j)%nat → F !! diagonal (Z.of_nat d) i = Some f →
                J (Z.of_nat d) (diagonal (Z.of_nat d) i) (fr_x f) (fr_history f)).
  destruct (inner_loop_rule II (J distance (N - M) N) (Z.of_nat d)
              (S (Z.to_nat (Z.of_nat d))) 0 G)
    as [(h' & Hh' & HQ)|(G' & HG' & HStd & HJ' & Hall)].
  - split_and!; [by apply Std_start | done | intros; lia].
  - intros i F Hi (HStd & HJF & Hall).
    assert (on_level (Z.of_nat d) (diagonal (Z.of_nat d) i)) as Hlev
      by (unfold on_level, diagonal; lia).
    destruct (body_trace _ _ F (proj1 HStd) Hlev)
      as (x & h' & HT & HP & [[Ht ->]|[Ht ->]]).
    all: assert (J (Z.of_nat d) (diagonal (Z.of_nat d) i) x h') as HJx.
    1,3: destruct (proj1 HStd) as [[Hd0 HF1]|[Hd1 HL]];
      [rewrite Hd0 in *;
       replace (diagonal 0 i) with 0 in * by (unfold diagonal; lia);
       by apply (J_first F)
      |destruct HJF as [?|HJF]; [lia|]; by apply (J_next _ _ F)].
    + left. exists h'. split; [done|].
      assert (Z.of_nat d = distance) as Heq
        by (pose proof (terminal_level _ _ _ _ HP Ht); lia).
      rewrite Heq in HP, HJx, Ht.
      destruct (terminal_corner _ _ _ HP Ht) as [-> Hk]. by rewrite Hk in HJx.
    + right. eexists. split; [done|]. split_and!.
      * by apply Std_insert.
      * destruct HJF as [->|HJF]; [by left|right].
        intros k f [Hk Hpar]. rewrite lookup_insert_ne; [|unfold diagonal; lia].
        by apply HJF.
      * intros i' f Hi'. destruct (decide (i' = i)) as [->|Hne].
        -- rewrite lookup_insert_eq. by intros [= <-].
        -- rewrite lookup_insert_ne; [|unfold diagonal; lia]. apply Hall. lia.
  - left. by exists h'.
  - right. exists G'. split; [done|]. simpl in *.
    assert (LevelOK (Z.of_nat d) G') as HL by (apply Std_level; [lia | done]).
    split_and!.
    + right. split; [lia|]. by replace (Z.of_nat (S d) - 1) with (Z.of_nat d) by lia.
    + right. replace (Z.of_nat (S d) - 1) with (Z.of_nat d) by lia.
      intros k f [Hk Hpar] Hf.
      pose proof (Hall (Z.to_nat ((k + Z.of_nat d) `div` 2)) f) as HJk.
      replace (diagonal (Z.of_nat d) (Z.to_nat ((k + Z.of_nat d) `div` 2)))
        with k in HJk by (unfold diagonal; lia).
      apply HJk; [lia | done].
    + destruct (decide (Z.of_nat d = distance)) as [Heq|]; [|lia].
      rewrite Heq in HL. by apply LevelOK_distance in HL.
Qed.
End EntryInvariant.
(** ** What one iteration computes *)

Lemma getitem_inv {A} (l : list A) (i : Z) (v : A) :
  0 ≤ i → getitem l i = Ok v → l !! Z.to_nat i = Some v.
Proof.
  intros Hi. unfold getitem.
  rewrite (bool_decide_eq_false_2 (i < 0)) by lia.
  rewrite bool_decide_eq_true_2 by lia.
  destruct (l !! Z.to_nat i); [by intros [= ->] | done].
Qed.

Lemma go_down_true_inv d k F :
  go_down d k F = Ok true →
  k = - d ∨ (k ≠ d ∧ ∃ l r, F !! (k - 1) = Some l ∧ F !! (k + 1) = Some r ∧
                           fr_x l < fr_x r).
Proof.
  unfold go_down, frontier_get. case_bool_decide as H1; [by left|].
  case_bool_decide as H2; [|done].
  destruct (F !! (k - 1)) as [l|]; simpl; [|done].
  destruct (F !! (k + 1)) as [r|]; simpl; [|done].
  case_bool_decide; [|done]. intros _. right. split; [done|]. by exists l, r.
Qed.

Lemma go_down_false_inv d k F :
  go_down d k F = Ok false →
  k ≠ - d ∧ (k = d ∨ ∃ l r, F !! (k - 1) = Some l ∧ F !! (k + 1) = Some r ∧
                           fr_x r ≤ fr_x l).
Proof.
  unfold go_down, frontier_get. case_bool_decide as H1; [done|].
  case_bool_decide as H2; [|intros _; split; [done | left; tauto]].
  destruct (F !! (k - 1)) as [l|]; simpl; [|done].
  destruct (F !! (k + 1)) as [r|]; simpl; [|done].
  case_bool_decide; [done|]. intros _. split; [done|]. right. exists l, r.
  split_and!; [done | done | lia].
Qed.

(** A down move from a point with [0 ≤ y]: inside the graph it appends the
    [Insert] of [b[y]]; in any case it keeps what the history holds. *)
Lemma discrete_move_down x y h hs :
  1 ≤ y → discrete_move a b true x y h = Ok hs →
  h `prefix_of` hs ∧
  (y ≤ M → ∃ p, b !! Z.to_nat (y - 1) = Some p ∧ hs = h ++ [insert_of p]).
Proof.
  intros Hy. unfold discrete_move. rewrite (bool_decide_eq_true_2 _ Hy).
  destruct (decide (y ≤ M)) as [HyM|HyM].
  - rewrite (bool_decide_eq_true_2 _ HyM). simpl.
    destruct (getitem b (one y)) as [p|] eqn:Hp; simpl; [|done].
    intros [= <-]. apply getitem_inv in Hp; [|unfold one; lia].
    split; [by apply prefix_app_r|]. intros _. by exists p.
  - rewrite (bool_decide_eq_false_2 _ HyM). simpl.
    destruct (bool_decide (1 ≤ x) && bool_decide (x ≤ N)).
    + destruct (getitem a (one x)) as [p|]; simpl; [|done].
      intros [= <-]. split; [by apply prefix_app_r | done].
    + intros [= <-]. done.
Qed.

(** A right move to a point with [1 ≤ x]: inside the graph it appends the
    [Remove] of [a[x - 1]]. *)
Lemma discrete_move_right x y h hs :
  1 ≤ x → discrete_move a b false x y h = Ok hs →
  h `prefix_of` hs ∧
  (x ≤ N → ∃ p, a !! Z.to_nat (x - 1) = Some p ∧ hs = h ++ [remove_of p]).
Proof.
  intros Hx. unfold discrete_move. rewrite andb_false_r.
  rewrite (bool_decide_eq_true_2 _ Hx).
  destruct (decide (x ≤ N)) as [HxN|HxN].
  - rewrite (bool_decide_eq_true_2 _ HxN). simpl.
    destruct (getitem a (one x)) as [p|] eqn:Hp; simpl; [|done].
    intros [= <-]. apply getitem_inv in Hp; [|unfold one; lia].
    split; [by apply prefix_app_r|]. intros _. by exists p.
  - rewrite (bool_decide_eq_false_2 _ HxN). simpl. intros [= <-]. done.
Qed.

(** The first iteration keeps the longest common prefix of the lists. *)
Lemma Trace_first F x h :
  F !! 1 = Some (mk_Frontier 0 []) → Trace 0 0 F x h →
  x = Z.of_nat (length (common_prefix a b)) ∧ h = keep_of <$> common_prefix a b.
Proof.
  intros HF (down & f & hs & Hgo & Hf & Hmv & Hc). simpl in *.
  unfold go_down in Hgo. rewrite bool_decide_eq_true_2 in Hgo by lia.
  injection Hgo as <-. change (0 + 1) with 1 in Hf.
  rewrite HF in Hf. injection Hf as <-.
  simpl in *. injection Hmv as <-.
  apply chew_common in Hc; [|done..]. simpl in Hc. by injection Hc as -> _ ->.
Qed.

(** Every later iteration starts from a point of the previous level, moves
    down or right as line 187 decides, and keeps the longest common prefix
    of what is left. *)
Lemma Trace_cases d k F x h :
  1 ≤ d → on_level d k → LevelOK (d - 1) F → Trace d k F x h →
  ∃ f hs xs,
    x = xs + Z.of_nat (length (common_prefix (drop (Z.to_nat xs) a)
                                             (drop (Z.to_nat (xs - k)) b))) ∧
    h = hs ++ (keep_of <$> common_prefix (drop (Z.to_nat xs) a)
                                         (drop (Z.to_nat (xs - k)) b)) ∧
    fr_history f `prefix_of` hs ∧ 0 ≤ fr_x f ∧
    ((on_level (d - 1) (k + 1) ∧ F !! (k + 1) = Some f ∧
      xs = fr_x f ∧ 1 ≤ fr_x f - k ∧
      (k = - d ∨ (k ≠ d ∧ ∃ l, F !! (k - 1) = Some l ∧ fr_x l < fr_x f)) ∧
      (fr_x f - k ≤ M →
       ∃ p, b !! Z.to_nat (fr_x f - k - 1) = Some p ∧
            hs = fr_history f ++ [insert_of p])) ∨
     (on_level (d - 1) (k - 1) ∧ F !! (k - 1) = Some f ∧
      xs = fr_x f + 1 ∧ 0 ≤ fr_x f + 1 - k ∧
      (k = d ∨ (k ≠ d ∧ ∃ r, F !! (k + 1) = Some r ∧ fr_x r ≤ fr_x f)) ∧
      (fr_x f + 1 ≤ N →
       ∃ p, a !! Z.to_nat (fr_x f) = Some p ∧
            hs = fr_history f ++ [remove_of p]))).
Proof.
  intros Hd [Hk Hpar] HL (down & f & hs & Hgo & Hf & Hmv & Hc). simpl in *.
  exists f, hs, (if down then fr_x f else fr_x f + 1).
  assert (on_level (d - 1) (if down then k + 1 else k - 1)) as Hlev.
  { destruct down.
    - apply go_down_true_inv in Hgo. unfold on_level. lia.
    - apply go_down_false_inv in Hgo. unfold on_level. lia. }
  destruct (HL _ Hlev) as (f' & Hf' & ([Hx Hy _ _ _] & _) & _).
  rewrite Hf in Hf'. injection Hf' as <-.
  assert (0 ≤ (if down then fr_x f else fr_x f + 1)) as Hxs by (destruct down; lia).
  assert (0 ≤ (if down then fr_x f else fr_x f + 1) - k) as Hys by (destruct down; lia).
  apply chew_common in Hc; [|done..].
  injection Hc as Hxeq _ ->.
  split_and!; [lia | done | | lia |].
  - destruct down.
    + by apply (discrete_move_down (fr_x f) (fr_x f - k) _ _ ltac:(lia)) in Hmv as [? _].
    + by apply (discrete_move_right (fr_x f + 1) (fr_x f + 1 - k) _ _ ltac:(lia)) in Hmv as [? _].
  - destruct down; [left|right].
    + apply (discrete_move_down (fr_x f) (fr_x f - k) _ _ ltac:(lia)) in Hmv as [_ Hmv].
      apply go_down_true_inv in Hgo.
      split_and!; [done | done | done | lia | | done].
      destruct Hgo as [?|(? & l & r & Hl & Hr & Hlt)]; [by left|right].
      split; [done|]. exists l. rewrite Hf in Hr. by injection Hr as <-.
    + apply (discrete_move_right (fr_x f + 1) (fr_x f + 1 - k) _ _ ltac:(lia)) in Hmv as [_ Hmv].
      apply go_down_false_inv in Hgo.
      replace (fr_x f + 1 - 1) with (fr_x f) in Hmv by lia.
      split_and!; [done | done | done | lia | | done].
      destruct Hgo as [_ [?|(l & r & Hl & Hr & Hle)]]; [by left|].
      destruct (decide (k = d)); [by left|right].
      split; [done|]. exists r. rewrite Hf in Hl. by injection Hl as <-.
Qed.

(** ** Three invariants of the returned history *)

(** The longest common prefix of the two lists is kept. *)
Lemma search_keeps_prefix levels h :
  search a b levels = Ok (Returned h) →
  (keep_of <$> common_prefix a b) `prefix_of` h.
Proof.
  apply (search_invariant (λ _ _ _ h, (keep_of <$> common_prefix a b) `prefix_of` h)).
  - intros F x h' HF HT. by destruct (Trace_first F x h' HF HT) as [_ ->].
  - intros d k F x h' Hd Hk HL HJ HT _.
    destruct (Trace_cases d k F x h' Hd Hk HL HT)
      as (f & hs & xs & _ & -> & Hpre & _ & Hfrom).
    apply prefix_app_r. etrans; [|exact Hpre].
    destruct Hfrom as [(Hlev & Hf & _)|(Hlev & Hf & _)]; by apply (HJ _ f Hlev).
Qed.

Lemma common_prefix_disjoint (i j : nat) :
  (∀ p, p ∈ a → p ∉ b) → common_prefix (drop i a) (drop j b) = [].
Proof.
  intros Hdisj. destruct (common_prefix _ _) as [|p cp] eqn:Hcp; [done|].
  pose proof (common_prefix_l (drop i a) (drop j b)) as [ta Ha].
  pose proof (common_prefix_r (drop i a) (drop j b)) as [tb Hb].
  rewrite Hcp in Ha, Hb. destruct (Hdisj p).
  - apply (elem_of_sublist (drop i a)); [|apply sublist_drop]. rewrite Ha. by left.
  - apply (elem_of_sublist (drop j b)); [|apply sublist_drop]. rewrite Hb. by left.
Qed.

(** Lists without a common element: every removal, then every insertion. *)
Lemma search_disjoint levels h :
  (∀ p, p ∈ a → p ∉ b) →
  search a b levels = Ok (Returned h) →
  h = (remove_of <$> a) ++ (insert_of <$> b).
Proof.
  intros Hdisj Hs.
  assert (2 * N = distance + (N - M) ∧
          (N ≤ N → N - (N - M) ≤ M →
           h = (remove_of <$> take (Z.to_nat N) a) ++
               (insert_of <$> take (Z.to_nat (N - (N - M))) b))) as [_ Hh].
  2: { rewrite Hh by lia. rewrite !take_ge by (unfold a_max, b_max; lia). done. }
  revert Hs.
  apply (search_invariant (λ d k x h,
    2 * x = d + k ∧
    (x ≤ N → x - k ≤ M →
     h = (remove_of <$> take (Z.to_nat x) a) ++
         (insert_of <$> take (Z.to_nat (x - k)) b)))).
  - intros F x h' HF HT. destruct (Trace_first F x h' HF HT) as [-> ->].
    replace (common_prefix a b) with (@nil Param)
      by (symmetry; apply (common_prefix_disjoint 0 0 Hdisj)).
    by split.
  - intros d k F x h' Hd Hk HL HJ HT _.
    destruct (Trace_cases d k F x h' Hd Hk HL HT)
      as (f & hs & xs & -> & -> & _ & Hxf & Hfrom).
    rewrite (common_prefix_disjoint _ _ Hdisj). simpl. rewrite app_nil_r, Z.add_0_r.
    destruct Hfrom as [(Hlev & Hf & -> & Hy & _ & Hmv)|(Hlev & Hf & -> & Hy & Hwhy & Hmv)].
    + destruct (HJ _ f Hlev Hf) as [Hxeq Hhf]. split; [lia|].
      intros HxN HyM. destruct (Hmv HyM) as (p & Hp & ->).
      rewrite Hhf by lia. rewrite <- app_assoc. f_equal.
      replace (fr_x f - k) with (fr_x f - k - 1 + 1) by lia.
      rewrite (take_succ b _ p) by (done || lia). rewrite fmap_app.
      by replace (fr_x f - (k + 1)) with (fr_x f - k - 1) by lia.
    + destruct (HJ _ f Hlev Hf) as [Hxeq Hhf].
      assert (k = d) as ->.
      { destruct Hwhy as [?|(Hne & r & Hr & Hle)]; [done|].
        destruct (HJ (k + 1) r) as [Hreq _]; [unfold on_level in *; lia | done | lia]. }
      split; [lia|]. intros HxN HyM. destruct (Hmv HxN) as (p & Hp & ->).
      rewrite Hhf by lia.
      replace (Z.to_nat (fr_x f - (d - 1))) with 0%nat by lia.
      replace (Z.to_nat (fr_x f + 1 - d)) with 0%nat by lia.
      rewrite (take_succ a _ p) by done. simpl.
      by rewrite !app_nil_r, fmap_app.
Qed.

Lemma removes_first_app (h l : list Step) :
  removes_first h → Forall (λ s, is_remove s = false) l → removes_first (h ++ l).
Proof.
  intros Hh Hl i s s' Hi Hi' Hs.
  destruct (decide (S i < length h)%nat) as [Hlt|Hge].
  - rewrite lookup_app_l in Hi, Hi' by lia. exact (Hh i s s' Hi Hi' Hs).
  - rewrite lookup_app_r in Hi' by lia.
    by apply (Forall_lookup_1 _ _ _ _ Hl Hi').
Qed.

Lemma removes_first_snoc (h : list Step) (s : Step) :
  removes_first h → ¬ ends_with_insert h → removes_first (h ++ [s]).
Proof.
  intros Hh Hend i s1 s2 Hi Hi' Hs.
  destruct (decide (S i < length h)%nat) as [Hlt|Hge].
  - rewrite lookup_app_l in Hi, Hi' by lia. exact (Hh i s1 s2 Hi Hi' Hs).
  - pose proof (lookup_lt_Some _ _ _ Hi') as Hlen.
    rewrite length_app in Hlen. simpl in Hlen.
    rewrite lookup_app_l in Hi by lia. destruct Hend. exists s1.
    split; [|done]. rewrite last_lookup.
    by replace (pred (length h)) with i by lia.
Qed.

Lemma ends_with_insert_keeps (h : list Step) (cp : list Param) :
  ends_with_insert (h ++ (keep_of <$> cp)) → cp = [] ∧ ends_with_insert h.
Proof.
  destruct cp as [|p cp _] using rev_ind.
  { simpl. rewrite app_nil_r. by split. }
  rewrite fmap_app, app_assoc. simpl. intros (s & Hs & Hins).
  rewrite last_snoc in Hs. by injection Hs as <-.
Qed.

Lemma keeps_not_remove (cp : list Param) :
  Forall (λ s, is_remove s = false) (keep_of <$> cp).
Proof. apply Forall_fmap, Forall_forall. by intros p _. Qed.

(** Inside a run of edits the removals come first. *)
Lemma search_removes_first levels h :
  search a b levels = Ok (Returned h) → removes_first h.
Proof.
  intros Hs.
  assert (N ≤ N → N - (N - M) ≤ M →
          Reach distance N (N - (N - M)) ∧ removes_first h ∧
          (ends_with_insert h → Reach (distance - 1) N (N - (N - M) - 1)) ∧
          (N - M = distance → ¬ ends_with_insert h)) as Hh.
  2: { destruct Hh as (_ & Hh & _); [lia.. | done]. }
  revert Hs.
  apply (search_invariant (λ d k x h,
    x ≤ N → x - k ≤ M →
    Reach d x (x - k) ∧ removes_first h ∧
    (ends_with_insert h → Reach (d - 1) x (x - k - 1)) ∧
    (k = d → ¬ ends_with_insert h))).
  - intros F x h' HF HT _ _. destruct (Trace_first F x h' HF HT) as [-> ->].
    assert (¬ ends_with_insert (keep_of <$> common_prefix a b)) as Hend.
    { intros Hend. apply (ends_with_insert_keeps []) in Hend as [_ (s & Hs & _)].
      done. }
    split_and!; [| | done | done].
    + replace (Z.of_nat (length (common_prefix a b)) - 0)
        with (Z.of_nat (length (common_prefix a b))) by lia.
      apply (Reach_common_prefix 0 0 0 _ ltac:(lia) ltac:(lia));
        [done | apply Reach_origin].
    + apply (removes_first_app []); [|apply keeps_not_remove].
      intros i s s' Hi. by rewrite lookup_nil in Hi.
  - intros d k F x h' Hd Hk HL HJ HT _ HxN HyM.
    destruct (Trace_cases d k F x h' Hd Hk HL HT)
      as (f & hs & xs & Hx & -> & _ & Hxf & Hfrom).
    set (cp := common_prefix _ _) in *.
    destruct Hfrom as [(Hlev & Hf & -> & Hy & Hwhy & Hmv)|(Hlev & Hf & -> & Hy & Hwhy & Hmv)].
    + destruct (HJ _ f Hlev Hf) as (HR & Hrf & _); [lia | lia |].
      destruct Hmv as (p & Hp & ->); [lia|].
      assert (Reach d (fr_x f) (fr_x f - k)) as HR'.
      { eapply Reach_eq; [apply (Reach_down _ _ _ HR)|lia..]. lia. }
      split_and!.
      * eapply Reach_eq;
          [apply (Reach_common_prefix d (fr_x f) (fr_x f - k) (length cp)); try lia; done
          |lia..].
      * apply removes_first_app; [|apply keeps_not_remove].
        apply removes_first_app; [done | by constructor].
      * intros [Hcp _]%ends_with_insert_keeps. rewrite Hcp in Hx. simpl in Hx.
        eapply Reach_eq; [exact HR|lia..].
      * intros ->. destruct Hwhy as [?|[? _]]; lia.
    + destruct (HJ _ f Hlev Hf) as (HR & Hrf & Hins & Htop); [lia | lia |].
      destruct Hmv as (p & Hp & ->); [lia|].
      assert (¬ ends_with_insert (fr_history f)) as Hend.
      { destruct Hwhy as [->|(Hne & r & Hr & Hle)]; [by apply Htop|].
        intros Hend. specialize (Hins Hend).
        assert (Reach (d - 1) (fr_x f + 1) (fr_x f - k)) as HR2.
        { eapply Reach_eq; [apply (Reach_right _ _ _ Hins)|lia..]. lia. }
        destruct (HL (k + 1)) as (r' & Hr' & (_ & _ & Hfar) & _);
          [unfold on_level in *; lia|].
        rewrite Hr in Hr'. injection Hr' as <-.
        specialize (Hfar _ _ HR2). lia. }
      assert (Reach d (fr_x f + 1) (fr_x f + 1 - k)) as HR'.
      { eapply Reach_eq; [apply (Reach_right _ _ _ HR)|lia..]. lia. }
      split_and!.
      * eapply Reach_eq;
          [apply (Reach_common_prefix d (fr_x f + 1) (fr_x f + 1 - k) (length cp));
             try lia; done
          |lia..].
      * apply removes_first_app; [|apply keeps_not_remove].
        by apply removes_first_snoc.
      * intros [_ (s & Hs & Hi)]%ends_with_insert_keeps.
        rewrite last_snoc in Hs. by injection Hs as <-.
      * intros _ [_ (s & Hs & Hi)]%ends_with_insert_keeps.
        rewrite last_snoc in Hs. by injection Hs as <-.
Qed.

(** ** The iterations that the search explores *)

(** An explored iteration starts from a frontier that satisfies the loop
    invariant. *)
Lemma explored_Std d k F :
  explored d k F →
  ∃ i : nat, k = diagonal d i ∧ (i ≤ Z.to_nat d)%nat ∧ Std d i F.
Proof.
  intros (i & F0 & [Hd0 HdNM] & Hk & Ho & Hi).
  rewrite range_diagonals in Hk, Hi by done.
  rewrite list_lookup_fmap in Hk.
  destruct (seq 0 (S (Z.to_nat d)) !! i) as [i'|] eqn:Hseq; simpl in Hk; [|done].
  injection Hk as <-. apply lookup_seq in Hseq as [-> Hlt]. simpl.
  exists i. split; [done|]. split; [lia|].
  assert (Prev d F0) as HF0.
  { rewrite range_unit in Ho. pose proof distance_nonneg.
    destruct (outer_spec (Z.to_nat d) 0 initial_frontier)
      as [(h & k' & x & Ho' & _)|(F' & Ho' & HP & _)];
      [by left | lia | congruence |].
    rewrite Ho in Ho'. injection Ho' as <-.
    by replace (Z.of_nat (0 + Z.to_nat d)) with d in HP by lia. }
  rewrite <- fmap_take, take_seq in Hi.
  replace (i `min` S (Z.to_nat d))%nat with i in Hi by lia.
  destruct (inner_loop_rule (λ j G, Std d j G) (λ _, True) d i 0 F0)
    as [(h & Hh & _)|(F' & HF' & HStd)]; [by apply Std_start | | congruence |].
  - intros j G Hj HStd.
    assert (on_level d (diagonal d j)) as Hlev by (unfold on_level, diagonal; lia).
    destruct (body_trace d _ G (proj1 HStd) Hlev)
      as (x & h & _ & HP & [[Ht ->]|[Ht ->]]); [left; by exists h|].
    right. eexists. split; [done|]. by apply Std_insert.
  - rewrite Hi in HF'. by injection HF' as <-.
Qed.

Lemma inner_loop_app d (l1 l2 : list Z) F :
  inner_loop a b d (l1 ++ l2) F =
    r ← inner_loop a b d l1 F;
    match r with
    | Returned h => Ok (Returned h)
    | Next F' => inner_loop a b d l2 F'
    end.
Proof.
  revert F. induction l1 as [|k l1 IH]; intros F; [done|]. simpl.
  destruct (body a b d k F) as [[h|F']|e]; simpl; [done | apply IH | done].
Qed.

Lemma outer_loop_app (l1 l2 : list Z) F :
  outer_loop a b (l1 ++ l2) F =
    r ← outer_loop a b l1 F;
    match r with
    | Returned h => Ok (Returned h)
    | Next F' => outer_loop a b l2 F'
    end.
Proof.
  revert F. induction l1 as [|d l1 IH]; intros F; [done|]. simpl.
  destruct (inner_loop a b d _ F) as [[h|F']|e]; simpl; [done | apply IH | done].
Qed.

Lemma range_split (d n : Z) :
  0 ≤ d < n → range 0 n 1 = range 0 d 1 ++ d :: range (d + 1) n 1.
Proof.
  intros Hd. unfold range. rewrite !Z.div_1_r.
  replace (Z.to_nat (n - 0 + 1 - 1))
    with (Z.to_nat (d - 0 + 1 - 1) + S (Z.to_nat (n - (d + 1) + 1 - 1)))%nat by lia.
  rewrite seq_app, fmap_app. f_equal. simpl. f_equal; [lia|].
  replace (S (Z.to_nat (d - 0 + 1 - 1))) with (S (Z.to_nat (d - 0 + 1 - 1)) + 0)%nat
    by lia.
  rewrite <- fmap_add_seq, <- list_fmap_compose.
  apply list_fmap_ext. intros _ j _. simpl. lia.
Qed.

(** The search is the iteration [(d, k)] run from [F], followed by the
    rest of level [d] and by the later levels. *)
Lemma explored_resume d k F :
  explored d k F →
  ∃ i : nat, range (- d) (d + 1) 2 !! i = Some k ∧
    search a b (N + M + 1) =
      resume d (drop (S i) (range (- d) (d + 1) 2)) (range (d + 1) (N + M + 1) 1)
        (body a b d k F).
Proof.
  intros (i & F0 & [Hd0 HdNM] & Hk & Ho & Hi). exists i. split; [done|].
  unfold search, resume. rewrite (range_split d) by lia.
  rewrite outer_loop_app, Ho. simpl.
  rewrite <- (take_drop_middle _ _ _ Hk) at 1. rewrite inner_loop_app, Hi. simpl.
  by destruct (body a b d k F) as [[h|F']|e].
Qed.

(** The three branches of lines 207-210. *)
Lemma discrete_move_cases (down : bool) x y h hs :
  discrete_move a b down x y h = Ok hs →
  (down = true ∧ 1 ≤ y ≤ M ∧
   ∃ p, b !! Z.to_nat (y - 1) = Some p ∧ hs = h ++ [Insert p.1 p.2]) ∨
  (¬ (down = true ∧ 1 ≤ y ≤ M) ∧ 1 ≤ x ≤ N ∧
   ∃ p, a !! Z.to_nat (x - 1) = Some p ∧ hs = h ++ [Remove p.1 p.2]) ∨
  (¬ (down = true ∧ 1 ≤ y ≤ M) ∧ ¬ (1 ≤ x ≤ N) ∧ hs = h).
Proof.
  unfold discrete_move.
  destruct (decide (down = true ∧ 1 ≤ y ≤ M)) as [(-> & Hy1 & Hy2)|Hno].
  { rewrite (bool_decide_eq_true_2 _ Hy1), (bool_decide_eq_true_2 _ Hy2). simpl.
    destruct (getitem b (one y)) as [p|] eqn:Hp; simpl; [|done].
    intros [= <-]. apply getitem_inv in Hp; [|unfold one; lia].
    left. split_and!; [done..|]. by exists p. }
  assert (bool_decide (1 ≤ y) && bool_decide (y ≤ M) && down = false) as ->.
  { destruct down; [|by rewrite andb_false_r]. rewrite andb_true_r.
    apply andb_false_iff. destruct (decide (1 ≤ y)) as [Hy|Hy].
    - right. apply bool_decide_eq_false_2. intros ?. by destruct Hno.
    - left. by apply bool_decide_eq_false_2. }
  destruct (decide (1 ≤ x ≤ N)) as [[Hx1 Hx2]|Hx].
  - rewrite (bool_decide_eq_true_2 _ Hx1), (bool_decide_eq_true_2 _ Hx2). simpl.
    destruct (getitem a (one x)) as [p|] eqn:Hp; simpl; [|done].
    intros [= <-]. apply getitem_inv in Hp; [|unfold one; lia].
    right. left. split_and!; [done..|]. by exists p.
  - assert (bool_decide (1 ≤ x) && bool_decide (x ≤ N) = false) as ->.
    { apply andb_false_iff. destruct (decide (1 ≤ x)) as [Hx1|Hx1].
      - right. apply bool_decide_eq_false_2. intros ?. by destruct Hx.
      - left. by apply bool_decide_eq_false_2. }
    intros [= <-]. right. right. by split_and!.
Qed.

(** Where the discrete move of an explored iteration starts and ends. *)
Lemma explored_move d k F (down : bool) f :
  explored d k F → go_down d k F = Ok down →
  F !! (if down then k + 1 else k - 1) = Some f →
  0 ≤ fr_x f ∧ 0 ≤ (if down then fr_x f else fr_x f + 1) - k ∧
  (d = 0 → down = true ∧ fr_x f = 0 ∧ fr_history f = []) ∧
  (1 ≤ d → if down then 1 ≤ fr_x f - k else 1 ≤ fr_x f + 1).
Proof.
  intros (i & -> & Hi & [HF _])%explored_Std Hgo Hf.
  destruct HF as [[-> HF]|[Hd HL]].
  { replace (diagonal 0 i) with 0 in * by (unfold diagonal; lia).
    unfold go_down in Hgo. rewrite bool_decide_eq_true_2 in Hgo by done.
    injection Hgo as <-. change (0 + 1) with 1 in Hf. rewrite HF in Hf.
    injection Hf as <-. simpl. split_and!; [done | done | done | lia]. }
  assert (on_level (d - 1) (if down then diagonal d i + 1 else diagonal d i - 1))
    as Hlev.
  { destruct down.
    - apply go_down_true_inv in Hgo. unfold on_level, diagonal in *. lia.
    - apply go_down_false_inv in Hgo. unfold on_level, diagonal in *. lia. }
  destruct (HL _ Hlev) as (f' & Hf' & ([Hx Hy _ _ _] & _) & _).
  rewrite Hf in Hf'. injection Hf' as <-.
  destruct down; split_and!; lia.
Qed.

End SearchCorrect.

(** ** Correctness of [_finalize] and [checkpoint_diff] *)

Lemma refines_parts s s' :
  refines s s' → a_part s' = a_part s ∧ b_part s' = b_part s ∧ is_edit s' = is_edit s.
Proof. destruct s; simpl; [intros [->|[dist ->]]|intros ->..]; done. Qed.

Lemma refines_proj h out :
  Forall2 refines h out →
  proj_a out = proj_a h ∧ proj_b out = proj_b h ∧ edits out = edits h.
Proof.
  induction 1 as [|s s' h out Hs _ (IHa & IHb & IHe)]; [done|].
  apply refines_parts in Hs as (Ha & Hb & He).
  change (s' :: out) with ([s'] ++ out). change (s :: h) with ([s] ++ h).
  rewrite !proj_a_app, !proj_b_app, !edits_app, IHa, IHb, IHe.
  assert (edits [s'] = edits [s]) as -> by by destruct s, s'.
  unfold proj_a, proj_b. simpl. by rewrite Ha, Hb.
Qed.

Lemma NoDup_fst_agree {A B} (l : list (A * B)) k v v' :
  NoDup l.*1 → (k, v) ∈ l → (k, v') ∈ l → v = v'.
Proof.
  induction l as [|[k0 v0] l IH]; simpl; [by intros _ ?%elem_of_nil|].
  intros [Hnot Hnd]%NoDup_cons [Heq|Hin]%elem_of_cons [Heq'|Hin']%elem_of_cons.
  - congruence.
  - injection Heq as -> ->. destruct Hnot. apply list_elem_of_fmap. by exists (k0, v').
  - injection Heq' as -> ->. destruct Hnot. apply list_elem_of_fmap. by exists (k0, v).
  - by apply IH.
Qed.

Section DiffCorrect.
Context {Tensor : Type}.
Variable tensor_shape : Tensor → Shape.
Variable rmse : Tensor → Tensor → float.

Abbreviation params := (param_list tensor_shape).
Abbreviation finalize := (_finalize rmse).

Lemma param_list_keys (A : list (string * Tensor)) : (params A).*1 = A.*1.
Proof. unfold param_list. rewrite <- list_fmap_compose. by apply list_fmap_ext. Qed.

Lemma dict_get_Some (A : list (string * Tensor)) k :
  k ∈ A.*1 → ∃ t, dict_get A k = Ok t ∧ (k, t) ∈ A.
Proof.
  induction A as [|[k0 v0] A IH]; simpl; [by intros ?%elem_of_nil|].
  intros Hin. case_bool_decide as Hk.
  - subst k0. exists v0. split; [done | by left].
  - apply elem_of_cons in Hin as [?|Hin]; [done|].
    destruct (IH Hin) as (t & Ht & Hin'). exists t. split; [done | by right].
Qed.

Lemma dict_get_None (A : list (string * Tensor)) k :
  k ∉ A.*1 → dict_get A k = Raise KeyError.
Proof.
  induction A as [|[k0 v0] A IH]; simpl; [done|].
  intros [Hne Hnot]%not_elem_of_cons.
  rewrite bool_decide_eq_false_2 by done. by apply IH.
Qed.

Lemma dict_get_param (A : list (string * Tensor)) k sh :
  (k, sh) ∈ params A → ∃ t, dict_get A k = Ok t ∧ (k, t) ∈ A.
Proof.
  intros Hin. apply dict_get_Some. rewrite <- param_list_keys.
  apply list_elem_of_fmap. by exists (k, sh).
Qed.

Lemma param_list_shape (A : list (string * Tensor)) k t sh :
  NoDup A.*1 → (k, t) ∈ A → (k, sh) ∈ params A → tensor_shape t = sh.
Proof.
  intros Hnd Hin (kv & [= -> ->] & Hin')%list_elem_of_fmap.
  destruct kv as [k' t']. simpl in *.
  by rewrite (NoDup_fst_agree A k' t t' Hnd Hin Hin').
Qed.

Lemma finalize_step_refines A B s s' :
  finalize_step rmse A B s = Ok s' → refines s s'.
Proof.
  destruct s as [k sh| | |]; simpl; try (by intros [= <-]).
  destruct (dict_get A k) as [ta|]; simpl; [|done].
  destruct (dict_get B k) as [tb|]; simpl; [|done].
  destruct (negb _); intros [= <-]; [right; by eexists | by left].
Qed.

Lemma finalize_cons s h A B :
  finalize (s :: h) A B =
    s' ← finalize_step rmse A B s; out ← finalize h A B; Ok (s' :: out).
Proof. done. Qed.

Lemma finalize_refines h A B out :
  finalize h A B = Ok out → Forall2 refines h out.
Proof.
  revert out. induction h as [|s h IH]; intros out; [by intros [= <-]|].
  rewrite finalize_cons.
  destruct (finalize_step rmse A B s) as [s'|] eqn:Hs; simpl; [|done].
  destruct (finalize h A B) as [out'|]; simpl; [|done].
  intros [= <-]. constructor; [by eapply finalize_step_refines | by apply IH].
Qed.

(** [_finalize] fails only on a [Keep] whose key one dictionary lacks. *)
Lemma finalize_raise h A B e :
  finalize h A B = Raise e →
  e = KeyError ∧ ∃ k sh, Keep k sh ∈ h ∧ (k ∉ A.*1 ∨ k ∉ B.*1).
Proof.
  induction h as [|s h IH]; [done|]. rewrite finalize_cons.
  destruct (finalize_step rmse A B s) as [s'|e'] eqn:Hs; simpl.
  - destruct (finalize h A B) as [out'|e']; simpl; [done|].
    intros [= ->]. destruct (IH eq_refl) as (-> & k & sh & Hin & Hk).
    split; [done|]. exists k, sh. split; [by right | done].
  - intros [= ->]. destruct s as [k sh| | |]; simpl in Hs; try done.
    destruct (decide (k ∈ A.*1)) as [HA|HA].
    + destruct (dict_get_Some A k HA) as (ta & Hta & _). rewrite Hta in Hs. simpl in Hs.
      destruct (decide (k ∈ B.*1)) as [HB|HB].
      * destruct (dict_get_Some B k HB) as (tb & Htb & _). rewrite Htb in Hs.
        simpl in Hs. by destruct (negb _).
      * rewrite (dict_get_None B k HB) in Hs. injection Hs as <-.
        split; [done|]. exists k, sh. split; [by left | by right].
    + rewrite (dict_get_None A k HA) in Hs. injection Hs as <-.
      split; [done|]. exists k, sh. split; [by left | by left].
Qed.

Lemma finalize_Ok_keys h A B out :
  finalize h A B = Ok out → ∀ k sh, Keep k sh ∈ h → k ∈ A.*1 ∧ k ∈ B.*1.
Proof.
  revert out. induction h as [|s h IH]; intros out Hf k sh Hin.
  { by apply elem_of_nil in Hin. }
  rewrite finalize_cons in Hf.
  destruct (finalize_step rmse A B s) as [s'|] eqn:Hs; simpl in Hf; [|done].
  destruct (finalize h A B) as [out'|]; simpl in Hf; [|done].
  apply elem_of_cons in Hin as [<-|Hin]; [|by eapply IH].
  simpl in Hs. destruct (decide (k ∈ A.*1)) as [HA|HA].
  - split; [done|]. destruct (dict_get_Some A k HA) as (ta & Hta & _).
    rewrite Hta in Hs. simpl in Hs.
    destruct (decide (k ∈ B.*1)) as [HB|HB]; [done|].
    by rewrite (dict_get_None B k HB) in Hs.
  - by rewrite (dict_get_None A k HA) in Hs.
Qed.

Lemma finalize_total h A B :
  (∀ k sh, Keep k sh ∈ h → k ∈ A.*1 ∧ k ∈ B.*1) →
  ∃ out, finalize h A B = Ok out.
Proof.
  intros Hkeys. destruct (finalize h A B) as [out|e] eqn:Hf; [by eexists|].
  destruct (finalize_raise h A B e Hf) as (_ & k & sh & Hin & Hk).
  destruct (Hkeys k sh Hin). tauto.
Qed.

Lemma Keep_in_both (h : list Step) k sh :
  Keep k sh ∈ h → (k, sh) ∈ proj_a h ∧ (k, sh) ∈ proj_b h.
Proof.
  intros Hin. split; apply list_elem_of_omap; by exists (Keep k sh).
Qed.

(** The search part of [checkpoint_diff_within], then [_finalize]. *)
Lemma diff_within_found levels A B :
  distance (params A) (params B) < levels →
  ∃ h out,
    search (params A) (params B) levels = Ok (Returned h) ∧
    finalize h A B = Ok out ∧
    checkpoint_diff_within tensor_shape rmse levels A B = Ok out ∧
    proj_a h = params A ∧ proj_b h = params B ∧
    Z.of_nat (edits h) = distance (params A) (params B) ∧
    plain h ∧ Forall2 refines h out.
Proof.
  intros Hlev.
  destruct (search_found (params A) (params B) levels Hlev)
    as (h & Hs & Hpa & Hpb & He & Hpl).
  destruct (finalize_total h A B) as [out Hout].
  { intros k sh [Ha Hb]%Keep_in_both. rewrite Hpa in Ha. rewrite Hpb in Hb.
    rewrite <- !param_list_keys. split; apply list_elem_of_fmap; by eexists (k, sh). }
  exists h, out. unfold checkpoint_diff_within. rewrite Hs. simpl.
  split_and!; try done. by apply (finalize_refines h A B).
Qed.

Lemma diff_found A B :
  ∃ h out,
    search (params A) (params B)
      (a_max (params A) + b_max (params B) + 1) = Ok (Returned h) ∧
    finalize h A B = Ok out ∧
    checkpoint_diff tensor_shape rmse A B = Ok out ∧
    proj_a h = params A ∧ proj_b h = params B ∧
    Z.of_nat (edits h) = distance (params A) (params B) ∧
    plain h ∧ Forall2 refines h out.
Proof.
  apply diff_within_found. pose proof (distance_le (params A) (params B)). lia.
Qed.
End DiffCorrect.

(** ** [_finalize] with a distance that may raise *)

Section RaisingCorrect.
Context {Tensor : Type}.
Variable distance_of : Tensor → Tensor → Result float.

Lemma finalize_raising_cons s h (A B : list (string * Tensor)) :
  _finalize_raising distance_of (s :: h) A B =
    s' ← finalize_step_raising distance_of A B s;
    out ← _finalize_raising distance_of h A B; Ok (s' :: out).
Proof. done. Qed.

Lemma finalize_step_raising_refines (A B : list (string * Tensor)) s s' :
  finalize_step_raising distance_of A B s = Ok s' → refines s s'.
Proof.
  destruct s as [k sh| | |]; simpl; try (by intros [= <-]).
  destruct (dict_get A k) as [ta|]; simpl; [|done].
  destruct (dict_get B k) as [tb|]; simpl; [|done].
  destruct (distance_of ta tb) as [dist|]; simpl; [|done].
  destruct (negb _); intros [= <-]; [right; by eexists | by left].
Qed.

(** Whatever [_finalize] returns refines its argument step by step. *)
Lemma finalize_raising_refines h (A B : list (string * Tensor)) out :
  _finalize_raising distance_of h A B = Ok out → Forall2 refines h out.
Proof.
  revert out. induction h as [|s h IH]; intros out; [by intros [= <-]|].
  rewrite finalize_raising_cons.
  destruct (finalize_step_raising distance_of A B s) as [s'|] eqn:Hs; simpl; [|done].
  destruct (_finalize_raising distance_of h A B) as [out'|]; simpl; [|done].
  intros [= <-]. constructor; [by eapply finalize_step_raising_refines | by apply IH].
Qed.

(** One step is rewritten without an exception exactly when it is no
    [Keep], or both lookups and the distance are defined. *)
Lemma finalize_step_raising_defined (A B : list (string * Tensor)) s :
  (∃ s', finalize_step_raising distance_of A B s = Ok s') ↔
  (∀ k sh, s = Keep k sh →
     ∃ ta tb dist, dict_get A k = Ok ta ∧ dict_get B k = Ok tb ∧
                   distance_of ta tb = Ok dist).
Proof.
  destruct s as [k sh| | |]; simpl;
    try (split; [by intros _ ?? | intros _; by eexists]).
  split.
  - intros [s' Hs] k' sh' [= <- <-].
    destruct (dict_get A k) as [ta|]; simpl in Hs; [|done].
    destruct (dict_get B k) as [tb|]; simpl in Hs; [|done].
    destruct (distance_of ta tb) as [dist|] eqn:Hd; simpl in Hs; [|done].
    by exists ta, tb, dist.
  - intros Hdef. destruct (Hdef k sh eq_refl) as (ta & tb & dist & -> & -> & Hd).
    simpl. rewrite Hd. simpl. destruct (negb _); by eexists.
Qed.

Lemma finalize_raising_defined h (A B : list (string * Tensor)) :
  (∃ out, _finalize_raising distance_of h A B = Ok out) ↔
  (∀ k sh, Keep k sh ∈ h →
     ∃ ta tb dist, dict_get A k = Ok ta ∧ dict_get B k = Ok tb ∧
                   distance_of ta tb = Ok dist).
Proof.
  induction h as [|s h IH].
  { split; [by intros _ k sh ?%elem_of_nil | intros _; by exists []]. }
  rewrite finalize_raising_cons. split.
  - intros [out Hout] k sh Hin.
    destruct (finalize_step_raising distance_of A B s) as [s'|] eqn:Hs;
      simpl in Hout; [|done].
    destruct (_finalize_raising distance_of h A B) as [out'|] eqn:Hh;
      simpl in Hout; [|done].
    apply elem_of_cons in Hin as [<-|Hin].
    + apply (proj1 (finalize_step_raising_defined A B (Keep k sh))
               (ex_intro _ s' Hs) k sh eq_refl).
    + by apply (proj1 IH (ex_intro _ out' eq_refl) k sh).
  - intros Hdef.
    destruct (proj2 (finalize_step_raising_defined A B s)) as [s' ->].
    { intros k sh ->. apply (Hdef k sh). by left. }
    destruct (proj2 IH) as [out' ->].
    { intros k sh Hin. apply (Hdef k sh). by right. }
    by eexists.
Qed.
End RaisingCorrect.

(** With a distance that always returns, the two versions of [_finalize]
    agree. *)
Lemma finalize_raising_pure {Tensor} (rmse : Tensor → Tensor → float) h A B :
  _finalize_raising (λ ta tb, Ok (rmse ta tb)) h A B = _finalize rmse h A B.
Proof.
  induction h as [|s h IH]; [done|].
  rewrite finalize_raising_cons, finalize_cons, IH.
  assert (finalize_step_raising (λ ta tb, Ok (rmse ta tb)) A B s
          = finalize_step rmse A B s) as ->; [|done].
  by destruct s.
Qed.

Lemma lcs_length_self (l : list Param) : lcs_length l l = length l.
Proof.
  apply Nat.le_antisymm.
  - destruct (lcs_length_common l l) as (s & Hs & _ & <-). by apply sublist_length.
  - by apply lcs_length_max.
Qed.

(** A history without edits and without [Modify] keeps every element. *)
Lemma all_keeps (h : list Step) :
  plain h → edits h = 0%nat → h = (λ p : Param, Keep p.1 p.2) <$> proj_a h.
Proof.
  induction h as [|s h IH]; [done|].
  intros [Hs Hh]%Forall_cons. change (s :: h) with ([s] ++ h).
  rewrite edits_app, proj_a_app, fmap_app. intros He.
  rewrite <- IH by (done || lia). by destruct s.
Qed.

(** A history made of [Insert] and [Remove] steps only. *)
Lemma edits_only (h : list Step) :
  Forall (λ s, is_edit s = true) h →
  count is_remove h = length (proj_a h) ∧ count is_insert h = length (proj_b h) ∧
  count is_keep h = 0%nat ∧ count is_modify h = 0%nat ∧
  filter is_edit h = h ∧
  step_key <$> h ≡ₚ (proj_a h).*1 ++ (proj_b h).*1.
Proof.
  unfold count. induction 1 as [|s h Hs _ (IHr & IHi & IHk & IHm & IHf & IHp)]; [done|].
  change (s :: h) with ([s] ++ h).
  rewrite !filter_app, !length_app, proj_a_app, proj_b_app, !fmap_app.
  rewrite IHr, IHi, IHk, IHm, IHf, IHp.
  destruct s; try done; simpl; split_and!; try done.
  by apply Permutation_middle.
Qed.

Section Claims.
Context {Tensor : Type}.
Variable tensor_shape : Tensor → Shape.
Variable rmse : Tensor → Tensor → float.

Abbreviation params := (param_list tensor_shape).
Abbreviation diff := (checkpoint_diff tensor_shape rmse).

Lemma params_length (A : list (string * Tensor)) : length (params A) = length A.
Proof. apply length_fmap. Qed.

Lemma diff_sound A B :
  ∃ out, diff A B = Ok out ∧ proj_a out = params A ∧ proj_b out = params B ∧
         Z.of_nat (edits out) = distance (params A) (params B).
Proof.
  destruct (diff_found tensor_shape rmse A B)
    as (h & out & _ & _ & Hd & Hpa & Hpb & He & _ & Href).
  apply refines_proj in Href as (Ha & Hb & He').
  exists out. by rewrite Ha, Hb, He'.
Qed.

(** A step of the result that belongs to both collections names an
    element of both. *)
Lemma kept_in_both (out : list Step) A B s k sh :
  proj_a out = params A → proj_b out = params B →
  s ∈ out → a_part s = Some (k, sh) → b_part s = Some (k, sh) →
  (k, sh) ∈ params A ∧ (k, sh) ∈ params B.
Proof.
  intros <- <- Hin Ha Hb. split; apply list_elem_of_omap; by exists s.
Qed.

(** C1. Minimality: the number of steps of [checkpoint_diff A B] that are
    neither [Keep] nor [Modify] is [|A| + |B| - 2 L], where [L] is the
    length of a longest common subsequence of the two [(key, shape)]
    lists: some common subsequence has length [L] and none is longer. *)
Theorem checkpoint_diff_minimal (A B : list (string * Tensor)) :
  ∃ out L,
    diff A B = Ok out ∧
    Z.of_nat (edits out) = Z.of_nat (length A) + Z.of_nat (length B) - 2 * Z.of_nat L ∧
    L = lcs_length (params A) (params B) ∧
    (∃ s, s `sublist_of` params A ∧ s `sublist_of` params B ∧ length s = L) ∧
    (∀ s, s `sublist_of` params A → s `sublist_of` params B → (length s ≤ L)%nat).
Proof.
  destruct (diff_sound A B) as (out & Hd & _ & _ & He).
  exists out, (lcs_length (params A) (params B)). split_and!; [done | | done | |].
  - rewrite He. unfold distance, a_max, b_max. by rewrite !params_length.
  - apply lcs_length_common.
  - apply lcs_length_max.
Qed.

(** C2, amended. Tie-break rule of line 187, at every iteration [(d, k)]
    that the search explores, entered with the frontier [F]. The lookups
    of line 187 succeed, and the move is a down move (the start point is
    the entry of diagonal [k + 1], with its [x]) exactly when [k = -d], or
    [k ≠ d] and the frontier reached a strictly larger [x] on diagonal
    [k + 1] than on diagonal [k - 1]; it is a right move (the entry of
    diagonal [k - 1], with [x + 1]) in the other cases. With [y = x - k],
    a down move to a row [1 ≤ y ≤ b_max] appends [Insert] of [b[y - 1]];
    any other move to a column [1 ≤ x ≤ a_max] appends [Remove] of
    [a[x - 1]], also a down move that ends below the last row; a move to
    any other point appends nothing. From level 1 on a down move has
    [1 ≤ y] and a right move [1 ≤ x]; at level 0 the move is the down move
    from the origin with the empty history. The [while] loop then extends
    that history, and the iteration returns it or stores it under [k];
    the search is this iteration followed by the rest of its loops. *)
Theorem tie_break_rule (a b : list Param) (d k : Z) (F : gmap Z _Frontier) :
  explored a b d k F →
  ∃ (down : bool) (f : _Frontier) (hs : list Step) (x' : Z) (h' : list Step),
    let x := if down then fr_x f else fr_x f + 1 in
    let y := x - k in
    go_down d k F = Ok down ∧
    (down = true ↔
       k = - d ∨ (k ≠ d ∧ ∃ l r, F !! (k - 1) = Some l ∧ F !! (k + 1) = Some r ∧
                                fr_x l < fr_x r)) ∧
    F !! (if down then k + 1 else k - 1) = Some f ∧
    start_point k down F = Ok (x, fr_history f) ∧
    0 ≤ x ∧ 0 ≤ y ∧
    (d = 0 → down = true ∧ x = 0 ∧ fr_history f = []) ∧
    (1 ≤ d → if down then 1 ≤ y else 1 ≤ x) ∧
    discrete_move a b down x y (fr_history f) = Ok hs ∧
    ((down = true ∧ 1 ≤ y ≤ b_max b ∧
      ∃ p, b !! Z.to_nat (y - 1) = Some p ∧ hs = fr_history f ++ [Insert p.1 p.2]) ∨
     (¬ (down = true ∧ 1 ≤ y ≤ b_max b) ∧ 1 ≤ x ≤ a_max a ∧
      ∃ p, a !! Z.to_nat (x - 1) = Some p ∧ hs = fr_history f ++ [Remove p.1 p.2]) ∨
     (¬ (down = true ∧ 1 ≤ y ≤ b_max b) ∧ ¬ (1 ≤ x ≤ a_max a) ∧
      hs = fr_history f)) ∧
    chew a b (Z.to_nat (a_max a - x)) x y hs = Ok (x', x' - k, h') ∧
    hs `prefix_of` h' ∧
    body a b d k F =
      Ok (if bool_decide (a_max a ≤ x') && bool_decide (b_max b ≤ x' - k)
          then Returned h' else Next (<[k := mk_Frontier x' h']> F)) ∧
    ∃ i : nat, range (- d) (d + 1) 2 !! i = Some k ∧
      search a b (a_max a + b_max b + 1) =
        resume a b d (drop (S i) (range (- d) (d + 1) 2))
          (range (d + 1) (a_max a + b_max b + 1) 1) (body a b d k F).
Proof.
  intros Hex.
  destruct (explored_Std a b d k F Hex) as (i & Hk & Hi & [HF _]).
  assert (0 ≤ d) as Hd by (destruct Hex as (_ & _ & [? _] & _); done).
  assert (on_level d k) as Hlev by (unfold on_level; rewrite Hk; unfold diagonal; lia).
  destruct (body_trace a b d k F HF Hlev)
    as (x' & h' & (down & f & hs & Hgo & Hf & Hmv & Hc) & _ & _).
  simpl in Hmv, Hc.
  destruct (explored_move a b d k F down f Hex Hgo Hf) as (Hx & Hy & Hd0 & Hd1).
  assert (start_point k down F
          = Ok (if down then fr_x f else fr_x f + 1, fr_history f)) as Hst.
  { unfold start_point. destruct down; by rewrite (frontier_get_Some F _ _ Hf). }
  exists down, f, hs, x', h'. simpl. split_and!.
  - done.
  - split.
    + intros ->. by apply go_down_true_inv.
    + intros Hrule. destruct down; [done|].
      apply go_down_false_inv in Hgo as [Hne Hgo].
      destruct Hrule as [?|(Hne' & l & r & Hl & Hr & Hlt)]; [done|].
      destruct Hgo as [?|(l' & r' & Hl' & Hr' & Hle)]; [done|].
      rewrite Hl in Hl'. rewrite Hr in Hr'. injection Hl' as <-. injection Hr' as <-. lia.
  - done.
  - done.
  - destruct down; lia.
  - done.
  - intros Hz. destruct (Hd0 Hz) as (-> & Hxf & Hh). by split_and!.
  - intros H1. specialize (Hd1 H1). destruct down; lia.
  - done.
  - by apply discrete_move_cases.
  - done.
  - apply chew_common in Hc; [|destruct down; lia | done].
    injection Hc as _ _ ->. by apply prefix_app_r.
  - unfold body. rewrite Hgo. simpl. rewrite Hst. simpl. rewrite Hmv. simpl.
    rewrite Hc. simpl. by destruct (_ && _).
  - by apply explored_resume.
Qed.

Lemma finalize_keeps (l : list Param) (A B : list (string * Tensor)) :
  (∀ p, p ∈ l → finalize_step rmse A B (Keep p.1 p.2) = Ok (Keep p.1 p.2)) →
  _finalize rmse ((λ p : Param, Keep p.1 p.2) <$> l) A B =
    Ok ((λ p : Param, Keep p.1 p.2) <$> l).
Proof.
  induction l as [|p l IH]; intros Hstep; [done|].
  rewrite fmap_cons, finalize_cons, (Hstep p) by by left. simpl.
  rewrite IH; [done|]. intros q Hq. apply Hstep. by right.
Qed.

(** Identity, for tensors whose distance to themselves is [0.0]: every
    element is kept, in order, and no [Keep] is rewritten. *)
Lemma diff_self (A : list (string * Tensor)) :
  (∀ k t, (k, t) ∈ A → (rmse t t =? 0)%float = true) →
  diff A A = Ok ((λ p : Param, Keep p.1 p.2) <$> params A).
Proof.
  intros Hzero.
  destruct (diff_found tensor_shape rmse A A)
    as (h & out & _ & Hf & -> & Hpa & _ & He & Hpl & _).
  unfold distance, a_max, b_max in He. rewrite lcs_length_self in He.
  rewrite (all_keeps h), Hpa in Hf by (done || lia).
  rewrite <- Hf. apply finalize_keeps.
  intros [k sh] Hin. simpl.
  destruct (dict_get_param tensor_shape A k sh Hin) as (t & -> & Hin'). simpl.
  by rewrite (Hzero k t Hin').
Qed.
(** C4. Shape change forces a structural edit: a key present in both
    mappings with different shapes appears as a [Remove] with A's shape
    and an [Insert] with B's shape, and no [Keep] or [Modify] step has
    that key. *)
Theorem shape_change_is_replace (A B : list (string * Tensor)) k ta tb :
  NoDup A.*1 → NoDup B.*1 →
  (k, ta) ∈ A → (k, tb) ∈ B → tensor_shape ta ≠ tensor_shape tb →
  ∃ out, diff A B = Ok out ∧
    Remove k (tensor_shape ta) ∈ out ∧ Insert k (tensor_shape tb) ∈ out ∧
    ∀ s, s ∈ out → step_key s = k → is_keep s = false ∧ is_modify s = false.
Proof.
  intros HndA HndB Ha Hb Hne.
  destruct (diff_sound A B) as (out & Hd & Hpa & Hpb & _).
  assert (∀ s sh, s ∈ out → a_part s = Some (k, sh) → b_part s = Some (k, sh) → False)
    as Hboth.
  { intros s sh Hin Hsa Hsb.
    destruct (kept_in_both out A B s k sh Hpa Hpb Hin Hsa Hsb) as [HA HB].
    apply (param_list_shape tensor_shape A k ta sh HndA Ha) in HA.
    apply (param_list_shape tensor_shape B k tb sh HndB Hb) in HB. congruence. }
  exists out. split_and!; [done | | |].
  - assert ((k, tensor_shape ta) ∈ proj_a out) as Hin.
    { rewrite Hpa. apply list_elem_of_fmap. by exists (k, ta). }
    apply list_elem_of_omap in Hin as (s & Hin & Hs).
    destruct s as [k' sh'|k' sh'|k' sh'|k' sh' dist]; simpl in Hs; try done;
      injection Hs as -> ->; [|done|]; by destruct (Hboth _ _ Hin eq_refl eq_refl).
  - assert ((k, tensor_shape tb) ∈ proj_b out) as Hin.
    { rewrite Hpb. apply list_elem_of_fmap. by exists (k, tb). }
    apply list_elem_of_omap in Hin as (s & Hin & Hs).
    destruct s as [k' sh'|k' sh'|k' sh'|k' sh' dist]; simpl in Hs; try done;
      injection Hs as -> ->; [|done|]; by destruct (Hboth _ _ Hin eq_refl eq_refl).
  - intros s Hin Hk.
    destruct s as [k' sh'|k' sh'|k' sh'|k' sh' dist]; simpl in *; subst k'; try done;
      by destruct (Hboth _ _ Hin eq_refl eq_refl).
Qed.

(** C5. Disjointness: when A and B share no key, the result has exactly
    [|A|] [Remove] steps and [|B|] [Insert] steps, no [Keep] and no
    [Modify]; the keys of its [Remove] and [Insert] steps are the keys of
    A and of B, each exactly once. *)
Theorem disjoint_diff (A B : list (string * Tensor)) :
  NoDup A.*1 → NoDup B.*1 → (∀ k, k ∈ A.*1 → k ∉ B.*1) →
  ∃ out, diff A B = Ok out ∧
    count is_remove out = length A ∧ count is_insert out = length B ∧
    count is_keep out = 0%nat ∧ count is_modify out = 0%nat ∧
    step_key <$> filter is_edit out ≡ₚ A.*1 ++ B.*1 ∧
    NoDup (step_key <$> filter is_edit out).
Proof.
  intros HndA HndB Hdisj.
  destruct (diff_sound A B) as (out & Hd & Hpa & Hpb & _).
  assert (Forall (λ s, is_edit s = true) out) as Hedits.
  { apply Forall_forall. intros s Hin.
    assert (∀ k sh, a_part s = Some (k, sh) → b_part s = Some (k, sh) → False) as Hboth.
    { intros k sh Hsa Hsb.
      destruct (kept_in_both out A B s k sh Hpa Hpb Hin Hsa Hsb) as [HA HB].
      apply (Hdisj k); rewrite <- param_list_keys with (tensor_shape := tensor_shape);
        apply list_elem_of_fmap; by eexists (k, sh). }
    destruct s; try done; by destruct (Hboth _ _ eq_refl eq_refl). }
  destruct (edits_only out Hedits) as (Hr & Hi & Hk & Hm & Hf & Hp).
  rewrite Hpa, Hpb, !params_length, !param_list_keys in *.
  exists out. rewrite Hf. split_and!; try done.
  rewrite Hp. apply NoDup_app. split_and!; [done | | done].
  intros k. apply Hdisj.
Qed.

(** C6. Frame property of [_finalize], for every step list, every pair
    of mappings and every distance, also one that raises as the call of
    line 139 can: whatever [_finalize] returns has the length and the
    order of its argument; at each position a step other than a [Keep] is
    unchanged, and a [Keep] is either unchanged or replaced by a [Modify]
    with the same key and shape. It returns exactly when both lookups and
    the distance are defined for every [Keep] of its argument. The
    [_finalize] of the other statements is the case of a distance that
    always returns. *)
Theorem finalize_frame (distance_of : Tensor → Tensor → Result float)
    (history : list Step) (A B : list (string * Tensor)) :
  (∀ out, _finalize_raising distance_of history A B = Ok out →
     length out = length history ∧
     (∀ i s, history !! i = Some s → ∃ s', out !! i = Some s' ∧ refines s s') ∧
     (∀ i s', out !! i = Some s' → ∃ s, history !! i = Some s ∧ refines s s')) ∧
  ((∃ out, _finalize_raising distance_of history A B = Ok out) ↔
   (∀ k sh, Keep k sh ∈ history →
      ∃ ta tb dist, dict_get A k = Ok ta ∧ dict_get B k = Ok tb ∧
                    distance_of ta tb = Ok dist)) ∧
  _finalize_raising (λ ta tb, Ok (rmse ta tb)) history A B = _finalize rmse history A B.
Proof.
  split_and!.
  - intros out Hf%finalize_raising_refines. split_and!.
    + symmetry. by eapply Forall2_length.
    + intros i s Hi. by eapply Forall2_lookup_l.
    + intros i s' Hi. by eapply Forall2_lookup_r.
  - apply finalize_raising_defined.
  - apply finalize_raising_pure.
Qed.

(** C7. The lookups of [_finalize] never fail: every [Keep] step the
    search hands to [_finalize] has a key that both mappings hold, with
    tensors of the recorded shape, and [_finalize] returns. *)
Theorem keep_lookups_defined (A B : list (string * Tensor)) :
  NoDup A.*1 → NoDup B.*1 →
  ∃ history out,
    search (params A) (params B)
      (a_max (params A) + b_max (params B) + 1) = Ok (Returned history) ∧
    (∀ k sh, Keep k sh ∈ history →
       ∃ ta tb, dict_get A k = Ok ta ∧ dict_get B k = Ok tb ∧
                tensor_shape ta = sh ∧ tensor_shape tb = sh) ∧
    _finalize rmse history A B = Ok out ∧ diff A B = Ok out.
Proof.
  intros HndA HndB.
  destruct (diff_found tensor_shape rmse A B)
    as (h & out & Hs & Hf & Hd & Hpa & Hpb & _).
  exists h, out. split_and!; [done | | done | done].
  intros k sh [Ha Hb]%Keep_in_both. rewrite Hpa in Ha. rewrite Hpb in Hb.
  destruct (dict_get_param tensor_shape A k sh Ha) as (ta & Hta & Hta').
  destruct (dict_get_param tensor_shape B k sh Hb) as (tb & Htb & Htb').
  exists ta, tb. split_and!; [done | done | |].
  - by apply (param_list_shape tensor_shape A k ta sh).
  - by apply (param_list_shape tensor_shape B k tb sh).
Qed.

(** The rule of lines 136-141 at one position of the history. *)
Lemma finalize_keep_rule (history out : list Step) A B i k sh ta tb :
  history !! i = Some (Keep k sh) →
  dict_get A k = Ok ta → dict_get B k = Ok tb →
  _finalize rmse history A B = Ok out →
  out !! i = Some (if negb (rmse ta tb =? 0)%float
                   then Modify k sh (rmse ta tb) else Keep k sh).
Proof.
  revert i out. induction history as [|s h IH]; intros i out Hi Ha Hb; [done|].
  rewrite finalize_cons.
  destruct (finalize_step rmse A B s) as [s'|] eqn:Hs; simpl; [|done].
  destruct (_finalize rmse h A B) as [out'|]; simpl; [|done].
  intros [= <-]. destruct i as [|i]; simpl in *.
  - injection Hi as ->. simpl in Hs. rewrite Ha, Hb in Hs. simpl in Hs.
    destruct (negb _); by injection Hs as <-.
  - by apply IH.
Qed.

(** C9. The search is bounded and its failure unreachable: there is a
    level [d ≤ |A| + |B|] at which the search returns, so that
    [checkpoint_diff] returns a result; run over [d] levels or fewer,
    the function raises the assertion error instead of returning a
    script. *)
Theorem search_bounded (A B : list (string * Tensor)) :
  ∃ d, 0 ≤ d ≤ Z.of_nat (length A) + Z.of_nat (length B) ∧
    (∀ levels, d < levels →
       ∃ out, checkpoint_diff_within tensor_shape rmse levels A B = Ok out) ∧
    (∀ levels, levels ≤ d →
       checkpoint_diff_within tensor_shape rmse levels A B = Raise AssertionError) ∧
    ∃ out, diff A B = Ok out.
Proof.
  exists (distance (params A) (params B)).
  pose proof (distance_nonneg (params A) (params B)) as H0.
  pose proof (distance_le (params A) (params B)) as Hle.
  unfold a_max, b_max in Hle. rewrite !params_length in Hle.
  split_and!; [done | done | | |].
  - intros levels Hlev.
    destruct (diff_within_found tensor_shape rmse levels A B Hlev)
      as (h & out & _ & _ & Hd & _). by exists out.
  - intros levels Hlev.
    destruct (search_exhausted (params A) (params B) levels Hlev) as [F HF].
    unfold checkpoint_diff_within. by rewrite HF.
  - destruct (diff_sound A B) as (out & Hd & _). by exists out.
Qed.

(** C10. Edit-script soundness: the [Keep], [Modify] and [Remove] steps
    of the result, projected to [(key, shape)], are A's list in order, and
    its [Keep], [Modify] and [Insert] steps are B's list in order. *)
Theorem edit_script_sound (A B : list (string * Tensor)) :
  ∃ out, diff A B = Ok out ∧ proj_a out = params A ∧ proj_b out = params B.
Proof.
  destruct (diff_sound A B) as (out & Hd & Hpa & Hpb & _). by exists out.
Qed.
End Claims.

(** ** The claims at concrete inputs *)

(** C2, as the specification words it, fails. On [list_a] and [list_b] the
    search reaches the iteration [d = 2], [k = 0] with [x = 2] on diagonal
    [k - 1] and [x = 1] on diagonal [k + 1]: the frontier is further right
    on diagonal [k - 1], [k] is neither [-d] nor [d], and the step is a
    right move, which appends [Remove]. *)
Lemma tie_break_as_worded_fails :
  outer_loop Examples.list_a Examples.list_b (range 0 2 1) initial_frontier
    = Ok (Next Examples.frontier_1) ∧
  inner_loop Examples.list_a Examples.list_b 2 [-2] Examples.frontier_1
    = Ok (Next Examples.frontier_2) ∧
  fr_x <$> Examples.frontier_2 !! (0 - 1) = Some 2 ∧
  fr_x <$> Examples.frontier_2 !! (0 + 1) = Some 1 ∧
  0 ≠ - 2 ∧ 0 ≠ 2 ∧
  go_down 2 0 Examples.frontier_2 = Ok false ∧
  body Examples.list_a Examples.list_b 2 0 Examples.frontier_2
    = Ok (Returned [Insert "z" [1]; Keep "p" [1]; Keep "q" [1]; Remove "r" [1]]) ∧
  ¬ (go_down 2 0 Examples.frontier_2 = Ok true ↔
       0 = - 2 ∨ (0 ≠ 2 ∧ ∃ l r, Examples.frontier_2 !! (0 - 1) = Some l ∧
                                Examples.frontier_2 !! (0 + 1) = Some r ∧
                                fr_x r < fr_x l)).
Proof.
  assert (go_down 2 0 Examples.frontier_2 = Ok false) as Hgo by by vm_compute.
  split_and!; [by vm_compute.. | done | done | done | by vm_compute |].
  rewrite Hgo. intros [_ Hdown]. discriminate Hdown. right. split; [done|].
  eexists _, _. split_and!; [by vm_compute | by vm_compute | by vm_compute].
Qed.

(** C3 on the code: a tensor that holds NaN, and an empty tensor, have a NaN
    distance to themselves, which is not [0.0], so [checkpoint_diff A A]
    reports a [Modify]. *)
Theorem identity_modify_on_nan :
  Float64.diff Examples.dict_nan Examples.dict_nan = Ok [Modify "w" [1] nan] ∧
  Float64.diff Examples.dict_empty Examples.dict_empty = Ok [Modify "w" [0] nan].
Proof. split; by vm_compute. Qed.

(** C4 at [dict_a], [dict_b] and the key [w2]. *)
Lemma shape_change_is_replace_witness :
  NoDup Examples.dict_a.*1 ∧ NoDup Examples.dict_b.*1 ∧
  ("w2"%string, Examples.t4) ∈ Examples.dict_a ∧
  ("w2"%string, Examples.t2) ∈ Examples.dict_b ∧
  Float64.shape Examples.t4 ≠ Float64.shape Examples.t2 ∧
  ∃ out, Float64.diff Examples.dict_a Examples.dict_b = Ok out ∧
    Remove "w2" (Float64.shape Examples.t4) ∈ out ∧
    Insert "w2" (Float64.shape Examples.t2) ∈ out ∧
    ∀ s, s ∈ out → step_key s = "w2"%string → is_keep s = false ∧ is_modify s = false.
Proof.
  assert (NoDup Examples.dict_a.*1) as Ha by (apply (bool_decide_unpack _); by vm_compute).
  assert (NoDup Examples.dict_b.*1) as Hb by (apply (bool_decide_unpack _); by vm_compute).
  assert (("w2"%string, Examples.t4) ∈ Examples.dict_a) as Hta by (right; left).
  assert (("w2"%string, Examples.t2) ∈ Examples.dict_b) as Htb by (right; left).
  assert (Float64.shape Examples.t4 ≠ Float64.shape Examples.t2) as Hne by (by vm_compute).
  split_and!; [done..|].
  exact (shape_change_is_replace Float64.shape Float64.rmse
           Examples.dict_a Examples.dict_b "w2" Examples.t4 Examples.t2 Ha Hb Hta Htb Hne).
Defined.

(** C5 at [dict_a] and [dict_c]. *)
Lemma disjoint_diff_witness :
  NoDup Examples.dict_a.*1 ∧ NoDup Examples.dict_c.*1 ∧
  (∀ k, k ∈ Examples.dict_a.*1 → k ∉ Examples.dict_c.*1) ∧
  ∃ out, Float64.diff Examples.dict_a Examples.dict_c = Ok out ∧
    count is_remove out = length Examples.dict_a ∧
    count is_insert out = length Examples.dict_c ∧
    count is_keep out = 0%nat ∧ count is_modify out = 0%nat ∧
    step_key <$> filter is_edit out ≡ₚ Examples.dict_a.*1 ++ Examples.dict_c.*1 ∧
    NoDup (step_key <$> filter is_edit out).
Proof.
  assert (NoDup Examples.dict_a.*1) as Ha by (apply (bool_decide_unpack _); by vm_compute).
  assert (NoDup Examples.dict_c.*1) as Hc by (apply (bool_decide_unpack _); by vm_compute).
  assert (∀ k, k ∈ Examples.dict_a.*1 → k ∉ Examples.dict_c.*1) as Hdisj.
  { intros k Hk ->%list_elem_of_singleton. revert Hk. apply (bool_decide_unpack _). by vm_compute. }
  split_and!; [done..|].
  exact (disjoint_diff Float64.shape Float64.rmse Examples.dict_a Examples.dict_c Ha Hc Hdisj).
Defined.

(** C2, amended, at the iteration [d = 2], [k = -2] of the search on
    [list_a] and [list_b], which starts with [frontier_1]. *)
Lemma tie_break_rule_witness :
  explored Examples.list_a Examples.list_b 2 (-2) Examples.frontier_1 ∧
  ∃ (down : bool) (f : _Frontier) (hs : list Step) (x' : Z) (h' : list Step),
    let x := if down then fr_x f else fr_x f + 1 in
    let y := x - (-2) in
    go_down 2 (-2) Examples.frontier_1 = Ok down ∧
    (down = true ↔
       (-2) = - 2 ∨
       ((-2) ≠ 2 ∧ ∃ l r, Examples.frontier_1 !! ((-2) - 1) = Some l ∧
                           Examples.frontier_1 !! ((-2) + 1) = Some r ∧
                           fr_x l < fr_x r)) ∧
    Examples.frontier_1 !! (if down then (-2) + 1 else (-2) - 1) = Some f ∧
    start_point (-2) down Examples.frontier_1 = Ok (x, fr_history f) ∧
    0 ≤ x ∧ 0 ≤ y ∧
    (2 = 0 → down = true ∧ x = 0 ∧ fr_history f = []) ∧
    (1 ≤ 2 → if down then 1 ≤ y else 1 ≤ x) ∧
    discrete_move Examples.list_a Examples.list_b down x y (fr_history f) = Ok hs ∧
    ((down = true ∧ 1 ≤ y ≤ b_max Examples.list_b ∧
      ∃ p, Examples.list_b !! Z.to_nat (y - 1) = Some p ∧
           hs = fr_history f ++ [Insert p.1 p.2]) ∨
     (¬ (down = true ∧ 1 ≤ y ≤ b_max Examples.list_b) ∧ 1 ≤ x ≤ a_max Examples.list_a ∧
      ∃ p, Examples.list_a !! Z.to_nat (x - 1) = Some p ∧
           hs = fr_history f ++ [Remove p.1 p.2]) ∨
     (¬ (down = true ∧ 1 ≤ y ≤ b_max Examples.list_b) ∧
      ¬ (1 ≤ x ≤ a_max Examples.list_a) ∧ hs = fr_history f)) ∧
    chew Examples.list_a Examples.list_b (Z.to_nat (a_max Examples.list_a - x)) x y hs
      = Ok (x', x' - (-2), h') ∧
    hs `prefix_of` h' ∧
    body Examples.list_a Examples.list_b 2 (-2) Examples.frontier_1 =
      Ok (if bool_decide (a_max Examples.list_a ≤ x')
             && bool_decide (b_max Examples.list_b ≤ x' - (-2))
          then Returned h' else Next (<[(-2) := mk_Frontier x' h']> Examples.frontier_1)) ∧
    ∃ i : nat, range (- 2) (2 + 1) 2 !! i = Some (-2) ∧
      search Examples.list_a Examples.list_b
          (a_max Examples.list_a + b_max Examples.list_b + 1) =
        resume Examples.list_a Examples.list_b 2 (drop (S i) (range (- 2) (2 + 1) 2))
          (range (2 + 1) (a_max Examples.list_a + b_max Examples.list_b + 1) 1)
          (body Examples.list_a Examples.list_b 2 (-2) Examples.frontier_1).
Proof.
  assert (explored Examples.list_a Examples.list_b 2 (-2) Examples.frontier_1) as Hex.
  { exists 0%nat, Examples.frontier_1.
    split_and!; [by vm_compute | by vm_compute | by vm_compute | by vm_compute | done]. }
  split; [done|].
  exact (tie_break_rule Examples.list_a Examples.list_b 2 (-2) Examples.frontier_1 Hex).
Defined.

(** That iteration as the code runs it: [k = -d], so the move is a down
    move; it starts from [x = 2] on diagonal [-1] and ends in row [4],
    below the last row of the graph, where line 209 appends a [Remove]. *)
Example scenario_down_below_grid :
  go_down 2 (-2) Examples.frontier_1 = Ok true ∧
  Examples.frontier_1 !! (-1)
    = Some (mk_Frontier 2 [Insert "z" [1]; Keep "p" [1]; Keep "q" [1]]) ∧
  discrete_move Examples.list_a Examples.list_b true 2 4
      [Insert "z" [1]; Keep "p" [1]; Keep "q" [1]]
    = Ok [Insert "z" [1]; Keep "p" [1]; Keep "q" [1]; Remove "q" [1]].
Proof. split_and!; by vm_compute. Qed.

(** C6 at the history [Keep w1; Keep w2; Insert v] with [dict_a] and
    [dict_shifted], and the distance that raises when the shapes cannot be
    broadcast together. *)
Lemma finalize_frame_witness :
  _finalize_raising Float64.rmse_raising
    [Keep "w1" [4]; Keep "w2" [4]; Insert "v" [2]] Examples.dict_a Examples.dict_shifted
    = Ok [Keep "w1" [4]; Modify "w2" [4] 0.5; Insert "v" [2]] ∧
  length [Keep "w1" [4]; Modify "w2" [4] 0.5; Insert "v" [2]]
    = length [Keep "w1" [4]; Keep "w2" [4]; Insert "v" [2]] ∧
  (∀ i s, [Keep "w1" [4]; Keep "w2" [4]; Insert "v" [2]] !! i = Some s →
     ∃ s', [Keep "w1" [4]; Modify "w2" [4] 0.5; Insert "v" [2]] !! i = Some s' ∧
           refines s s') ∧
  (∀ i s', [Keep "w1" [4]; Modify "w2" [4] 0.5; Insert "v" [2]] !! i = Some s' →
     ∃ s, [Keep "w1" [4]; Keep "w2" [4]; Insert "v" [2]] !! i = Some s ∧
          refines s s').
Proof.
  assert (_finalize_raising Float64.rmse_raising
            [Keep "w1" [4]; Keep "w2" [4]; Insert "v" [2]]
            Examples.dict_a Examples.dict_shifted
          = Ok [Keep "w1" [4]; Modify "w2" [4] 0.5; Insert "v" [2]]) as Hf
    by (by vm_compute).
  split; [done|].
  exact (proj1 (finalize_frame Float64.rmse Float64.rmse_raising
                  [Keep "w1" [4]; Keep "w2" [4]; Insert "v" [2]]
                  Examples.dict_a Examples.dict_shifted) _ Hf).
Defined.

(** When [_finalize] raises: the tensors of [w2] in [dict_a] and [dict_b]
    have shapes 4 and 2, which cannot be broadcast together, and the call
    of line 139 raises, before a later missing key is looked up; a [Keep]
    whose key a mapping lacks raises [KeyError]. *)
Example finalize_raises :
  _finalize_raising Float64.rmse_raising [Keep "w2" [4]]
    Examples.dict_a Examples.dict_b = Raise RuntimeError ∧
  _finalize_raising Float64.rmse_raising [Keep "w2" [4]; Keep "w" [1]]
    Examples.dict_a Examples.dict_b = Raise RuntimeError ∧
  _finalize_raising Float64.rmse_raising [Keep "w" [1]]
    Examples.dict_none Examples.dict_none = Raise KeyError.
Proof. split_and!; by vm_compute. Qed.

(** C7 at [dict_a] and [dict_b]. *)
Lemma keep_lookups_defined_witness :
  NoDup Examples.dict_a.*1 ∧ NoDup Examples.dict_b.*1 ∧
  ∃ history out,
    search (param_list Float64.shape Examples.dict_a) (param_list Float64.shape Examples.dict_b)
      (a_max (param_list Float64.shape Examples.dict_a)
       + b_max (param_list Float64.shape Examples.dict_b) + 1) = Ok (Returned history) ∧
    (∀ k sh, Keep k sh ∈ history →
       ∃ ta tb, dict_get Examples.dict_a k = Ok ta ∧ dict_get Examples.dict_b k = Ok tb ∧
                Float64.shape ta = sh ∧ Float64.shape tb = sh) ∧
    _finalize Float64.rmse history Examples.dict_a Examples.dict_b = Ok out ∧
    Float64.diff Examples.dict_a Examples.dict_b = Ok out.
Proof.
  assert (NoDup Examples.dict_a.*1) as Ha by (apply (bool_decide_unpack _); by vm_compute).
  assert (NoDup Examples.dict_b.*1) as Hb by (apply (bool_decide_unpack _); by vm_compute).
  split_and!; [done..|].
  exact (keep_lookups_defined Float64.shape Float64.rmse Examples.dict_a Examples.dict_b Ha Hb).
Defined.

(** C8 on the code: the squared difference of [2^-600] and [0] underflows,
    the computed distance is [0.0] although the tensors differ, and the
    [Keep] stays. *)
Theorem tiny_difference_is_kept :
  Float64.rmse Examples.t_tiny Examples.t_zero = 0%float ∧
  Float64.data Examples.t_tiny ≠ Float64.data Examples.t_zero ∧
  _finalize Float64.rmse [Keep "w" [1]] Examples.dict_tiny Examples.dict_zero
    = Ok [Keep "w" [1]] ∧
  Float64.diff Examples.dict_tiny Examples.dict_zero = Ok [Keep "w" [1]].
Proof.
  split_and!; [by vm_compute | | by vm_compute | by vm_compute].
  intros H. apply (f_equal (λ l, (default 0 (head l) =? 0)%float)) in H.
  by vm_compute in H.
Qed.

(** ** The concrete scenarios of the specification *)

Example scenario_identical :
  Float64.diff Examples.dict_a Examples.dict_a = Ok [Keep "w1" [4]; Keep "w2" [4]].
Proof. by vm_compute. Qed.

Example scenario_insert :
  Float64.diff [("w1"%string, Examples.t4)] Examples.dict_b
    = Ok [Keep "w1" [4]; Insert "w2" [2]].
Proof. by vm_compute. Qed.

Example scenario_remove_modify :
  Float64.diff Examples.dict_a
    [("w2"%string, Float64.mk_tensor [1.5; 2.5; 3.5; 4.5]%float)]
    = Ok [Remove "w1" [4]; Modify "w2" [4] 0.5].
Proof. by vm_compute. Qed.

Example scenario_shape_change :
  Float64.diff Examples.dict_a Examples.dict_b
    = Ok [Keep "w1" [4]; Remove "w2" [4]; Insert "w2" [2]].
Proof. by vm_compute. Qed.

(** ** Further properties of [checkpoint_diff] and [_finalize] *)

Lemma lcs_length_sym (l1 l2 : list Param) : lcs_length l1 l2 = lcs_length l2 l1.
Proof.
  apply Nat.le_antisymm.
  - destruct (lcs_length_common l1 l2) as (s & H1 & H2 & <-). by apply lcs_length_max.
  - destruct (lcs_length_common l2 l1) as (s & H1 & H2 & <-). by apply lcs_length_max.
Qed.

(** The steps of a history, counted by kind. *)
Lemma count_parts (h : list Step) :
  length (proj_a h) = (count is_keep h + count is_modify h + count is_remove h)%nat ∧
  length (proj_b h) = (count is_keep h + count is_modify h + count is_insert h)%nat ∧
  edits h = (count is_insert h + count is_remove h)%nat ∧
  length (proj_common h) = (count is_keep h + count is_modify h)%nat ∧
  length h = (count is_keep h + count is_modify h
              + count is_insert h + count is_remove h)%nat.
Proof.
  unfold count, edits. induction h as [|s h (IHa & IHb & IHe & IHc & IHl)]; [done|].
  change (s :: h) with ([s] ++ h).
  rewrite !filter_app, !length_app, proj_a_app, proj_b_app.
  unfold proj_common in *. rewrite omap_app, !length_app.
  rewrite IHa, IHb, IHe, IHc, IHl. destruct s; simpl; lia.
Qed.

Lemma proj_common_sublist (h : list Step) :
  proj_common h `sublist_of` proj_a h ∧ proj_common h `sublist_of` proj_b h.
Proof.
  induction h as [|s h [IHa IHb]]; [done|].
  unfold proj_common, proj_a, proj_b in *.
  destruct s; split; simpl; first [done | by constructor].
Qed.

Lemma refines_kinds s s' :
  refines s s' →
  is_insert s' = is_insert s ∧ is_remove s' = is_remove s ∧
  common_part s' = common_part s.
Proof. destruct s; simpl; [intros [->|[dist ->]]|intros ->..]; done. Qed.

Lemma refines_counts h out :
  Forall2 refines h out →
  count is_insert out = count is_insert h ∧ count is_remove out = count is_remove h ∧
  proj_common out = proj_common h.
Proof.
  unfold count, proj_common.
  induction 1 as [|s s' h out Hs _ (IHi & IHr & IHc)]; [done|].
  apply refines_kinds in Hs as (Hi & Hr & Hc).
  change (s' :: out) with ([s'] ++ out). change (s :: h) with ([s] ++ h).
  rewrite !filter_app, !length_app, !omap_app, IHi, IHr, IHc.
  split_and!; [| |simpl; by rewrite Hc]; f_equal.
  - by destruct s, s'.
  - by destruct s, s'.
Qed.

Lemma refines_removes_first h out :
  Forall2 refines h out → removes_first h → removes_first out.
Proof.
  intros Href Hh i s1' s2' Hi Hi' Hins.
  destruct (Forall2_lookup_r _ _ _ _ _ Href Hi) as (s1 & H1 & (Hi1 & _ & _)%refines_kinds).
  destruct (Forall2_lookup_r _ _ _ _ _ Href Hi') as (s2 & H2 & (_ & Hr2 & _)%refines_kinds).
  rewrite Hr2. apply (Hh i s1 s2 H1 H2). by rewrite <- Hi1.
Qed.

Lemma sublist_fst {A B} (l1 l2 : list (A * B)) :
  l1 `sublist_of` l2 → l1.*1 `sublist_of` l2.*1.
Proof. induction 1; simpl; by constructor. Qed.

(** In a list without repetition two elements come in one order only. *)
Lemma before_NoDup {A} (l : list A) (x y : A) :
  NoDup l → before x y l → before y x l → False.
Proof.
  unfold before. induction l as [|z l IH]; [by intros _ ?%sublist_nil_r|].
  intros [Hz Hnd]%NoDup_cons
    [Hxy|(l1 & [= <- <-] & Hy)]%sublist_cons_r [Hyx|(l2 & [= Heq <-] & Hx)]%sublist_cons_r.
  - by apply IH.
  - subst z. destruct Hz. apply (elem_of_sublist [x; y]); [right; by left | done].
  - destruct Hz. apply (elem_of_sublist [y; x]); [right; by left | done].
  - destruct Hz. apply (elem_of_sublist [x]); [by left | done].
Qed.

Lemma before_total `{EqDecision A} (l : list A) (x y : A) :
  x ∈ l → y ∈ l → x ≠ y → before x y l ∨ before y x l.
Proof.
  unfold before. intros Hx Hy Hne. induction l as [|z l IH]; [by apply elem_of_nil in Hx|].
  assert (∀ u, u ∈ l → [u] `sublist_of` l) as Hone.
  { intros u (l1 & l2 & ->)%list_elem_of_split.
    apply (sublist_app [] l1 [u]); [apply sublist_nil_l|].
    apply sublist_skip, sublist_nil_l. }
  apply elem_of_cons in Hx as [->|Hx]; apply elem_of_cons in Hy as [->|Hy].
  - done.
  - left. by apply sublist_skip, Hone.
  - right. by apply sublist_skip, Hone.
  - destruct (IH Hx Hy); [left | right]; by apply sublist_cons.
Qed.

(** Every script that turns [a] into [b] has at least [distance a b]
    edits. *)
Lemma script_lower_bound (h : list Step) (a b : list Param) :
  proj_a h = a → proj_b h = b → distance a b ≤ Z.of_nat (edits h).
Proof.
  intros Ha Hb. destruct (proj_common_sublist h) as [Hsa Hsb].
  rewrite Ha in Hsa. rewrite Hb in Hsb.
  pose proof (lcs_length_max a b _ Hsa Hsb) as Hmax.
  destruct (count_parts h) as (Hla & Hlb & He & Hc & _).
  rewrite Ha in Hla. rewrite Hb in Hlb. unfold distance, a_max, b_max. lia.
Qed.

Section Properties.
Context {Tensor : Type}.
Variable tensor_shape : Tensor → Shape.
Variable rmse : Tensor → Tensor → float.

Abbreviation params := (param_list tensor_shape).
Abbreviation finalize := (_finalize rmse).
Abbreviation diff := (checkpoint_diff tensor_shape rmse).

Lemma dict_get_Ok (A : list (string * Tensor)) k t :
  dict_get A k = Ok t → (k, t) ∈ A.
Proof.
  induction A as [|[k0 v0] A IH]; simpl; [done|].
  case_bool_decide as Hk; [intros [= <-]; subst; by left | right; by apply IH].
Qed.

Lemma dict_get_NoDup (A : list (string * Tensor)) k t :
  NoDup A.*1 → (k, t) ∈ A → dict_get A k = Ok t.
Proof.
  intros Hnd Hin. destruct (dict_get_Some A k) as (t' & -> & Hin').
  { apply list_elem_of_fmap. by exists (k, t). }
  by rewrite (NoDup_fst_agree A k t t' Hnd Hin Hin').
Qed.

Lemma finalize_steps h A B out :
  finalize h A B = Ok out →
  Forall2 (λ s s', finalize_step rmse A B s = Ok s') h out.
Proof.
  revert out. induction h as [|s h IH]; intros out; [by intros [= <-]|].
  rewrite finalize_cons.
  destruct (finalize_step rmse A B s) as [s'|] eqn:Hs; simpl; [|done].
  destruct (finalize h A B) as [out'|]; simpl; [|done].
  intros [= <-]. constructor; [done | by apply IH].
Qed.

(** What a step of the result says about the step it was made from. *)
Lemma finalize_step_inv A B s s' :
  is_modify s = false → finalize_step rmse A B s = Ok s' →
  match s' with
  | Keep k sh =>
      s = Keep k sh ∧
      ∃ ta tb, dict_get A k = Ok ta ∧ dict_get B k = Ok tb ∧
               (rmse ta tb =? 0)%float = true
  | Modify k sh dist =>
      s = Keep k sh ∧
      ∃ ta tb, dict_get A k = Ok ta ∧ dict_get B k = Ok tb ∧
               dist = rmse ta tb ∧ (dist =? 0)%float = false
  | _ => s = s'
  end.
Proof.
  destruct s as [k sh| | |]; simpl; try (by intros _ [= <-]); [intros _ | done].
  destruct (dict_get A k) as [ta|] eqn:Ha; simpl; [|done].
  destruct (dict_get B k) as [tb|] eqn:Hb; simpl; [|done].
  destruct (rmse ta tb =? 0)%float eqn:Hz; simpl; intros [= <-];
    (split; [done|]); exists ta, tb; by split_and!.
Qed.

Lemma finalize_step_again A B s s' :
  finalize_step rmse A B s = Ok s' → finalize_step rmse A B s' = Ok s'.
Proof.
  destruct s as [k sh| | |]; simpl; try (by intros [= <-]).
  destruct (dict_get A k) as [ta|] eqn:Ha; simpl; [|done].
  destruct (dict_get B k) as [tb|] eqn:Hb; simpl; [|done].
  destruct (rmse ta tb =? 0)%float eqn:Hz; simpl; intros [= <-]; [|done].
  simpl. rewrite Ha, Hb. simpl. by rewrite Hz.
Qed.

(** [_finalize] leaves a history without [Keep] as it is. *)
Lemma finalize_no_keep h A B :
  Forall (λ s, is_keep s = false) h → finalize h A B = Ok h.
Proof.
  induction 1 as [|s h Hs _ IH]; [done|].
  rewrite finalize_cons, IH. by destruct s.
Qed.

Lemma diff_disjoint A B :
  (∀ p, p ∈ params A → p ∉ params B) →
  diff A B = Ok ((remove_of <$> params A) ++ (insert_of <$> params B)).
Proof.
  intros Hdisj.
  destruct (diff_found tensor_shape rmse A B) as (h & out & Hs & Hf & -> & _).
  rewrite (search_disjoint _ _ _ h Hdisj Hs) in Hf. rewrite <- Hf.
  apply finalize_no_keep, Forall_app. split; apply Forall_fmap, Forall_forall; by intros p _.
Qed.

Lemma not_common_removed (out : list Step) k :
  k ∉ (proj_common out).*1 → k ∈ (proj_a out).*1 → ∃ sh, Remove k sh ∈ out.
Proof.
  intros Hnot ([k' sh] & -> & (s & Hin & Hs)%list_elem_of_omap)%list_elem_of_fmap.
  simpl in *. destruct s as [k0 sh0|k0 sh0|k0 sh0|k0 sh0 dist]; simpl in Hs; try done;
    injection Hs as -> ->; [|by exists sh|];
    destruct Hnot; apply list_elem_of_fmap; exists (k', sh);
    (split; [done|]); apply list_elem_of_omap; by eexists.
Qed.

Lemma not_common_inserted (out : list Step) k :
  k ∉ (proj_common out).*1 → k ∈ (proj_b out).*1 → ∃ sh, Insert k sh ∈ out.
Proof.
  intros Hnot ([k' sh] & -> & (s & Hin & Hs)%list_elem_of_omap)%list_elem_of_fmap.
  simpl in *. destruct s as [k0 sh0|k0 sh0|k0 sh0|k0 sh0 dist]; simpl in Hs; try done;
    injection Hs as -> ->; [|by exists sh|];
    destruct Hnot; apply list_elem_of_fmap; exists (k', sh);
    (split; [done|]); apply list_elem_of_omap; by eexists.
Qed.

(** An empty first dictionary: every parameter of the second one is
    inserted, in order; an empty second dictionary: every parameter of the
    first one is removed, in order. *)
Theorem diff_empty (A B : list (string * Tensor)) :
  diff [] B = Ok (insert_of <$> params B) ∧
  diff A [] = Ok (remove_of <$> params A).
Proof.
  split.
  - rewrite diff_disjoint; [done|]. by intros p ?%elem_of_nil.
  - rewrite diff_disjoint; [by rewrite app_nil_r|]. intros p _. apply not_elem_of_nil.
Qed.

(** [_finalize] is idempotent: applied to its own result it returns that
    result again. *)
Theorem finalize_idempotent (history out : list Step) (A B : list (string * Tensor)) :
  finalize history A B = Ok out → finalize out A B = Ok out.
Proof.
  intros Hf%finalize_steps. induction Hf as [|s s' h out Hs _ IH]; [done|].
  by rewrite finalize_cons, (finalize_step_again A B s s' Hs), IH.
Qed.

(** What each step of the result means, for dictionaries with unique keys:
    a [Keep] names a parameter that both hold with that shape and whose
    computed distance is [0.0]; a [Modify] names one that both hold with
    that shape, carries the computed distance of the two tensors, and that
    distance is not [0.0]; an [Insert] names a parameter of the second
    dictionary and a [Remove] one of the first, with its shape. *)
Theorem steps_meaning (A B : list (string * Tensor)) :
  NoDup A.*1 → NoDup B.*1 →
  ∃ out, diff A B = Ok out ∧
    ∀ s, s ∈ out →
      match s with
      | Keep k sh =>
          ∃ ta tb, (k, ta) ∈ A ∧ (k, tb) ∈ B ∧
                   tensor_shape ta = sh ∧ tensor_shape tb = sh ∧
                   (rmse ta tb =? 0)%float = true
      | Modify k sh dist =>
          ∃ ta tb, (k, ta) ∈ A ∧ (k, tb) ∈ B ∧
                   tensor_shape ta = sh ∧ tensor_shape tb = sh ∧
                   dist = rmse ta tb ∧ (dist =? 0)%float = false
      | Insert k sh => ∃ tb, (k, tb) ∈ B ∧ tensor_shape tb = sh
      | Remove k sh => ∃ ta, (k, ta) ∈ A ∧ tensor_shape ta = sh
      end.
Proof.
  intros HndA HndB.
  destruct (diff_found tensor_shape rmse A B)
    as (h & out & _ & Hf & Hd & Hpa & Hpb & _ & Hpl & _).
  exists out. split; [done|]. intros s' (i & Hi)%list_elem_of_lookup_1.
  destruct (Forall2_lookup_r _ _ _ _ _ (finalize_steps h A B out Hf) Hi)
    as (s & Hs & Hstep).
  apply list_elem_of_lookup_2 in Hs.
  apply finalize_step_inv in Hstep; [|by apply (proj1 (Forall_forall _ _) Hpl)].
  assert (∀ k sh ta tb, Keep k sh ∈ h → dict_get A k = Ok ta → dict_get B k = Ok tb →
            (k, ta) ∈ A ∧ (k, tb) ∈ B ∧ tensor_shape ta = sh ∧ tensor_shape tb = sh)
    as Hboth.
  { intros k sh ta tb [Ha Hb]%Keep_in_both Hta%dict_get_Ok Htb%dict_get_Ok.
    rewrite Hpa in Ha. rewrite Hpb in Hb. split_and!; [done | done | |].
    - by apply (param_list_shape tensor_shape A k ta sh).
    - by apply (param_list_shape tensor_shape B k tb sh). }
  destruct s' as [k sh|k sh|k sh|k sh dist].
  - destruct Hstep as (-> & ta & tb & Hta & Htb & Hz).
    destruct (Hboth k sh ta tb Hs Hta Htb) as (? & ? & ? & ?).
    exists ta, tb. by split_and!.
  - subst s. assert ((k, sh) ∈ proj_b h) as Hin
      by (apply list_elem_of_omap; by exists (Insert k sh)).
    rewrite Hpb in Hin. apply list_elem_of_fmap in Hin as ([k' tb] & [= -> ->] & Hin).
    by exists tb.
  - subst s. assert ((k, sh) ∈ proj_a h) as Hin
      by (apply list_elem_of_omap; by exists (Remove k sh)).
    rewrite Hpa in Hin. apply list_elem_of_fmap in Hin as ([k' ta] & [= -> ->] & Hin).
    by exists ta.
  - destruct Hstep as (-> & ta & tb & Hta & Htb & Hdist & Hz).
    destruct (Hboth k sh ta tb Hs Hta Htb) as (? & ? & ? & ?).
    exists ta, tb. by split_and!.
Qed.

(** The steps of the result counted by kind, with [L] the length of a
    longest common subsequence of the two [(key, shape)] lists: [L] steps
    are [Keep] or [Modify], [|A| - L] are [Remove], [|B| - L] are
    [Insert], and the result has [|A| + |B| - L] steps. *)
Theorem diff_counts (A B : list (string * Tensor)) :
  ∃ out, diff A B = Ok out ∧
    (count is_keep out + count is_modify out)%nat = lcs_length (params A) (params B) ∧
    (count is_remove out + lcs_length (params A) (params B))%nat = length A ∧
    (count is_insert out + lcs_length (params A) (params B))%nat = length B ∧
    (length out + lcs_length (params A) (params B))%nat = (length A + length B)%nat.
Proof.
  destruct (diff_sound tensor_shape rmse A B) as (out & Hd & Hpa & Hpb & He).
  exists out. split; [done|].
  destruct (count_parts out) as (Ha & Hb & Hed & _ & Hl).
  rewrite Hpa, params_length in Ha. rewrite Hpb, params_length in Hb.
  unfold distance, a_max, b_max in He. rewrite !params_length in He. lia.
Qed.

(** Swapping the two dictionaries swaps the numbers of [Insert] and
    [Remove] steps and leaves the length of the result unchanged. *)
Theorem diff_swap_counts (A B : list (string * Tensor)) :
  ∃ out out', diff A B = Ok out ∧ diff B A = Ok out' ∧
    count is_insert out' = count is_remove out ∧
    count is_remove out' = count is_insert out ∧
    length out' = length out.
Proof.
  destruct (diff_sound tensor_shape rmse A B) as (out & Hd & Hpa & Hpb & He).
  destruct (diff_sound tensor_shape rmse B A) as (out' & Hd' & Hpa' & Hpb' & He').
  exists out, out'. split; [done|]. split; [done|].
  destruct (count_parts out) as (Ha & Hb & Hed & _ & Hl).
  destruct (count_parts out') as (Ha' & Hb' & Hed' & _ & Hl').
  rewrite Hpa in Ha. rewrite Hpb in Hb. rewrite Hpa' in Ha'. rewrite Hpb' in Hb'.
  unfold distance, a_max, b_max in He, He'.
  rewrite (lcs_length_sym (params B) (params A)) in He'. lia.
Qed.

(** The longest common prefix of the two [(key, shape)] lists is never
    edited: the result starts with one [Keep] or [Modify] step for each of
    its elements, in order. *)
Theorem common_prefix_kept (A B : list (string * Tensor)) :
  ∃ out, diff A B = Ok out ∧
    Forall2 refines (keep_of <$> common_prefix (params A) (params B))
      (take (length (common_prefix (params A) (params B))) out).
Proof.
  destruct (diff_found tensor_shape rmse A B)
    as (h & out & Hs & _ & Hd & _ & _ & _ & _ & Href).
  exists out. split; [done|].
  destruct (search_keeps_prefix _ _ _ h Hs) as [t ->].
  apply (Forall2_take _ _ _ (length (common_prefix (params A) (params B)))) in Href.
  by rewrite take_app_length' in Href by by rewrite length_fmap.
Qed.

(** Dictionaries whose [(key, shape)] lists have no common element: the
    result removes every parameter of the first, in order, and then
    inserts every parameter of the second, in order. *)
Theorem disjoint_removes_then_inserts (A B : list (string * Tensor)) :
  (∀ p, p ∈ params A → p ∉ params B) →
  diff A B = Ok ((remove_of <$> params A) ++ (insert_of <$> params B)).
Proof. apply diff_disjoint. Qed.

(** Inside a run of edits the removals come first: no [Insert] step of
    the result is immediately followed by a [Remove] step. *)
Theorem removes_before_inserts (A B : list (string * Tensor)) :
  ∃ out, diff A B = Ok out ∧ removes_first out.
Proof.
  destruct (diff_found tensor_shape rmse A B)
    as (h & out & Hs & _ & Hd & _ & _ & _ & _ & Href).
  exists out. split; [done|].
  apply (refines_removes_first h out Href), (search_removes_first _ _ _ h Hs).
Qed.

(** Two checkpoints of one architecture (the same keys with the same
    shapes in the same order): the result has one step for each parameter,
    in order; it is a [Modify] carrying the computed distance when that
    distance is not [0.0], and a [Keep] otherwise. *)
Theorem same_architecture (A B : list (string * Tensor)) :
  NoDup A.*1 → params A = params B →
  ∃ out, diff A B = Ok out ∧ length out = length A ∧
    ∀ i k ta tb, A !! i = Some (k, ta) → B !! i = Some (k, tb) →
      out !! i = Some (if negb (rmse ta tb =? 0)%float
                       then Modify k (tensor_shape ta) (rmse ta tb)
                       else Keep k (tensor_shape ta)).
Proof.
  intros HndA Hpar.
  assert (NoDup B.*1) as HndB.
  { by rewrite <- (param_list_keys tensor_shape B), <- Hpar, param_list_keys. }
  destruct (diff_found tensor_shape rmse A B)
    as (h & out & _ & Hf & Hd & Hpa & _ & He & Hpl & Href).
  rewrite <- Hpar in He. unfold distance, a_max, b_max in He.
  rewrite lcs_length_self in He.
  assert (h = keep_of <$> params A) as ->.
  { rewrite <- Hpa. apply all_keeps; [done | lia]. }
  exists out. split; [done|]. split.
  { by rewrite <- (Forall2_length _ _ _ Href), length_fmap, params_length. }
  intros i k ta tb Hi Hi'.
  apply (finalize_keep_rule rmse (keep_of <$> params A) out A B); [| | |done].
  - unfold param_list. by rewrite !list_lookup_fmap, Hi.
  - apply dict_get_NoDup; [done | by eapply list_elem_of_lookup_2].
  - apply dict_get_NoDup; [done | by eapply list_elem_of_lookup_2].
Qed.

(** The parameters that the result keeps or modifies form a longest
    common subsequence of the two [(key, shape)] lists. *)
Theorem kept_is_longest_common (A B : list (string * Tensor)) :
  ∃ out, diff A B = Ok out ∧
    proj_common out `sublist_of` params A ∧
    proj_common out `sublist_of` params B ∧
    length (proj_common out) = lcs_length (params A) (params B) ∧
    ∀ s, s `sublist_of` params A → s `sublist_of` params B →
         (length s ≤ length (proj_common out))%nat.
Proof.
  destruct (diff_sound tensor_shape rmse A B) as (out & Hd & Hpa & Hpb & He).
  exists out. split; [done|].
  destruct (proj_common_sublist out) as [Hsa Hsb]. rewrite Hpa in Hsa. rewrite Hpb in Hsb.
  assert (length (proj_common out) = lcs_length (params A) (params B)) as Hlen.
  { destruct (count_parts out) as (Ha & Hb & Hed & Hc & _).
    rewrite Hpa in Ha. rewrite Hpb in Hb. unfold distance, a_max, b_max in He. lia. }
  split_and!; [done | done | done |].
  intros s Ha Hb. rewrite Hlen. by apply lcs_length_max.
Qed.

(** The comparison follows the order of the parameters: of two keys that
    the dictionaries hold in opposite orders, at least one is reported
    both as removed and as inserted, although both dictionaries hold it. *)
Theorem reordered_is_replaced (A B : list (string * Tensor)) (k1 k2 : string) :
  NoDup A.*1 → NoDup B.*1 → before k1 k2 A.*1 → before k2 k1 B.*1 →
  ∃ out, diff A B = Ok out ∧
    ((∃ sh sh', Remove k1 sh ∈ out ∧ Insert k1 sh' ∈ out) ∨
     (∃ sh sh', Remove k2 sh ∈ out ∧ Insert k2 sh' ∈ out)).
Proof.
  intros HndA HndB HA HB.
  destruct (diff_sound tensor_shape rmse A B) as (out & Hd & Hpa & Hpb & _).
  exists out. split; [done|].
  destruct (proj_common_sublist out) as [Hsa%sublist_fst Hsb%sublist_fst].
  rewrite Hpa, param_list_keys in Hsa. rewrite Hpb, param_list_keys in Hsb.
  assert (∀ k, k ∈ A.*1 → k ∈ B.*1 → k ∉ (proj_common out).*1 →
               ∃ sh sh', Remove k sh ∈ out ∧ Insert k sh' ∈ out) as Hrepl.
  { intros k HkA HkB Hnot.
    destruct (not_common_removed out k Hnot) as [sh Hr].
    { by rewrite Hpa, param_list_keys. }
    destruct (not_common_inserted out k Hnot) as [sh' Hi].
    { by rewrite Hpb, param_list_keys. }
    by exists sh, sh'. }
  assert (k1 ∈ A.*1 ∧ k2 ∈ A.*1) as [H1A H2A].
  { split; apply (elem_of_sublist [k1; k2]); (done || by left || (right; by left)). }
  assert (k1 ∈ B.*1 ∧ k2 ∈ B.*1) as [H1B H2B].
  { split; apply (elem_of_sublist [k2; k1]); (done || by left || (right; by left)). }
  destruct (decide (k1 ∈ (proj_common out).*1)) as [H1|H1]; [|left; by apply Hrepl].
  destruct (decide (k2 ∈ (proj_common out).*1)) as [H2|H2]; [|right; by apply Hrepl].
  assert (k1 ≠ k2) as Hne.
  { intros ->. apply (sublist_NoDup _ _ HndA) in HA.
    apply NoDup_cons in HA as [Hnot _]. destruct Hnot. by left. }
  destruct (before_total _ k1 k2 H1 H2 Hne) as [Hb|Hb].
  - destruct (before_NoDup B.*1 k1 k2 HndB); [|done]. unfold before in *. by etrans.
  - destruct (before_NoDup A.*1 k1 k2 HndA); [done|]. unfold before in *. by etrans.
Qed.

(** The result is a shortest edit script: no sequence of steps that
    turns the first [(key, shape)] list into the second has fewer
    [Insert] and [Remove] steps. *)
Theorem diff_optimal (A B : list (string * Tensor)) :
  ∃ out, diff A B = Ok out ∧
    ∀ h, proj_a h = params A → proj_b h = params B → (edits out ≤ edits h)%nat.
Proof.
  destruct (diff_sound tensor_shape rmse A B) as (out & Hd & _ & _ & He).
  exists out. split; [done|]. intros h Ha Hb.
  pose proof (script_lower_bound h _ _ Ha Hb). lia.
Qed.

(** No parameter is removed and at once inserted again: a [Remove] step
    directly followed by an [Insert] step names a different
    [(key, shape)]. *)
Theorem no_redundant_replace (A B : list (string * Tensor)) :
  ∃ out, diff A B = Ok out ∧
    ∀ i k sh k' sh', out !! i = Some (Remove k sh) → out !! S i = Some (Insert k' sh') →
                     (k, sh) ≠ (k', sh').
Proof.
  destruct (diff_sound tensor_shape rmse A B) as (out & Hd & Hpa & Hpb & He).
  exists out. split; [done|]. intros i k sh k' sh' Hi Hi' [= <- <-].
  pose proof (take_drop_middle out i _ Hi) as Hout.
  rewrite (drop_S out _ (S i) Hi') in Hout.
  pose proof (script_lower_bound
                (take i out ++ [Keep k sh] ++ drop (S (S i)) out) (params A) (params B))
    as Hlow.
  rewrite <- Hout in Hpa, Hpb, He.
  change (Remove k sh :: Insert k sh :: drop (S (S i)) out)
    with ([Remove k sh; Insert k sh] ++ drop (S (S i)) out) in Hpa, Hpb, He.
  rewrite !proj_a_app in Hpa. rewrite !proj_b_app in Hpb. rewrite !edits_app in He.
  rewrite !proj_a_app, !proj_b_app, !edits_app in Hlow.
  specialize (Hlow Hpa Hpb). change (edits [Keep k sh]) with 0%nat in Hlow.
  change (edits [Remove k sh; Insert k sh]) with 2%nat in He. lia.
Qed.
End Properties.

(** ** The further properties at concrete inputs *)

(** [_finalize] twice, at [dict_a] and [dict_shifted]. *)
Lemma finalize_idempotent_witness :
  _finalize Float64.rmse [Keep "w1" [4]; Keep "w2" [4]]
    Examples.dict_a Examples.dict_shifted = Ok [Keep "w1" [4]; Modify "w2" [4] 0.5] ∧
  _finalize Float64.rmse [Keep "w1" [4]; Modify "w2" [4] 0.5]
    Examples.dict_a Examples.dict_shifted = Ok [Keep "w1" [4]; Modify "w2" [4] 0.5].
Proof.
  assert (_finalize Float64.rmse [Keep "w1" [4]; Keep "w2" [4]]
            Examples.dict_a Examples.dict_shifted
          = Ok [Keep "w1" [4]; Modify "w2" [4] 0.5]) as Hf by (by vm_compute).
  split; [done|].
  exact (finalize_idempotent Float64.rmse _ _ Examples.dict_a Examples.dict_shifted Hf).
Defined.

(** The identity at [dict_a], whose tensors are at distance [0.0] from
    themselves. *)
Lemma diff_self_witness :
  (∀ k t, (k, t) ∈ Examples.dict_a → (Float64.rmse t t =? 0)%float = true) ∧
  Float64.diff Examples.dict_a Examples.dict_a
    = Ok ((λ p : Param, Keep p.1 p.2) <$> param_list Float64.shape Examples.dict_a).
Proof.
  assert (∀ k t, (k, t) ∈ Examples.dict_a → (Float64.rmse t t =? 0)%float = true) as Hz.
  { intros k t Hin. apply elem_of_cons in Hin as [[= -> ->]|Hin]; [by vm_compute|].
    apply elem_of_cons in Hin as [[= -> ->]|Hin]; [by vm_compute|].
    by apply elem_of_nil in Hin. }
  split; [done|].
  exact (diff_self Float64.shape Float64.rmse Examples.dict_a Hz).
Defined.

(** The meaning of the steps at [dict_a] and [dict_shifted]. *)
Lemma steps_meaning_witness :
  NoDup Examples.dict_a.*1 ∧ NoDup Examples.dict_shifted.*1 ∧
  ∃ out, Float64.diff Examples.dict_a Examples.dict_shifted = Ok out ∧
    ∀ s, s ∈ out →
      match s with
      | Keep k sh =>
          ∃ ta tb, (k, ta) ∈ Examples.dict_a ∧ (k, tb) ∈ Examples.dict_shifted ∧
                   Float64.shape ta = sh ∧ Float64.shape tb = sh ∧
                   (Float64.rmse ta tb =? 0)%float = true
      | Modify k sh dist =>
          ∃ ta tb, (k, ta) ∈ Examples.dict_a ∧ (k, tb) ∈ Examples.dict_shifted ∧
                   Float64.shape ta = sh ∧ Float64.shape tb = sh ∧
                   dist = Float64.rmse ta tb ∧ (dist =? 0)%float = false
      | Insert k sh => ∃ tb, (k, tb) ∈ Examples.dict_shifted ∧ Float64.shape tb = sh
      | Remove k sh => ∃ ta, (k, ta) ∈ Examples.dict_a ∧ Float64.shape ta = sh
      end.
Proof.
  assert (NoDup Examples.dict_a.*1) as Ha by (apply (bool_decide_unpack _); by vm_compute).
  assert (NoDup Examples.dict_shifted.*1) as Hb
    by (apply (bool_decide_unpack _); by vm_compute).
  split_and!; [done..|].
  exact (steps_meaning Float64.shape Float64.rmse
           Examples.dict_a Examples.dict_shifted Ha Hb).
Defined.

(** Removals, then insertions, at [dict_a] and [dict_c]. *)
Lemma disjoint_removes_then_inserts_witness :
  (∀ p, p ∈ param_list Float64.shape Examples.dict_a →
        p ∉ param_list Float64.shape Examples.dict_c) ∧
  Float64.diff Examples.dict_a Examples.dict_c
    = Ok ((remove_of <$> param_list Float64.shape Examples.dict_a) ++
          (insert_of <$> param_list Float64.shape Examples.dict_c)).
Proof.
  assert (∀ p, p ∈ param_list Float64.shape Examples.dict_a →
               p ∉ param_list Float64.shape Examples.dict_c) as Hdisj.
  { apply Forall_forall. apply (bool_decide_unpack _). by vm_compute. }
  split; [done|].
  exact (disjoint_removes_then_inserts Float64.shape Float64.rmse
           Examples.dict_a Examples.dict_c Hdisj).
Defined.

(** One architecture, at [dict_a] and [dict_shifted]. *)
Lemma same_architecture_witness :
  NoDup Examples.dict_a.*1 ∧
  param_list Float64.shape Examples.dict_a
    = param_list Float64.shape Examples.dict_shifted ∧
  ∃ out, Float64.diff Examples.dict_a Examples.dict_shifted = Ok out ∧
    length out = length Examples.dict_a ∧
    ∀ i k ta tb, Examples.dict_a !! i = Some (k, ta) →
      Examples.dict_shifted !! i = Some (k, tb) →
      out !! i = Some (if negb (Float64.rmse ta tb =? 0)%float
                       then Modify k (Float64.shape ta) (Float64.rmse ta tb)
                       else Keep k (Float64.shape ta)).
Proof.
  assert (NoDup Examples.dict_a.*1) as Ha by (apply (bool_decide_unpack _); by vm_compute).
  assert (param_list Float64.shape Examples.dict_a
          = param_list Float64.shape Examples.dict_shifted) as Hpar by reflexivity.
  split_and!; [done..|].
  exact (same_architecture Float64.shape Float64.rmse
           Examples.dict_a Examples.dict_shifted Ha Hpar).
Defined.

(** Two parameters in opposite orders, at [dict_a] and [dict_swapped]. *)
Lemma reordered_is_replaced_witness :
  NoDup Examples.dict_a.*1 ∧ NoDup Examples.dict_swapped.*1 ∧
  before "w1"%string "w2"%string Examples.dict_a.*1 ∧
  before "w2"%string "w1"%string Examples.dict_swapped.*1 ∧
  ∃ out, Float64.diff Examples.dict_a Examples.dict_swapped = Ok out ∧
    ((∃ sh sh', Remove "w1" sh ∈ out ∧ Insert "w1" sh' ∈ out) ∨
     (∃ sh sh', Remove "w2" sh ∈ out ∧ Insert "w2" sh' ∈ out)).
Proof.
  assert (NoDup Examples.dict_a.*1) as Ha by (apply (bool_decide_unpack _); by vm_compute).
  assert (NoDup Examples.dict_swapped.*1) as Hb
    by (apply (bool_decide_unpack _); by vm_compute).
  assert (before "w1"%string "w2"%string Examples.dict_a.*1) as Hab
    by (unfold before; reflexivity).
  assert (before "w2"%string "w1"%string Examples.dict_swapped.*1) as Hba
    by (unfold before; reflexivity).
  split_and!; [done..|].
  exact (reordered_is_replaced Float64.shape Float64.rmse
           Examples.dict_a Examples.dict_swapped "w1" "w2" Ha Hb Hab Hba).
Defined.

(** The reordered dictionaries as the code compares them. *)
Example scenario_reordered :
  Float64.diff Examples.dict_a Examples.dict_swapped
    = Ok [Remove "w1" [4]; Keep "w2" [4]; Insert "w1" [4]].
Proof. by vm_compute. Qed.
